(** * todotxt-parser: a shallow embedding of src/src/parser.ts

    JavaScript strings are sequences of UTF-16 code units; we model them as
    [list Z].  The regular expressions of the parser are modelled by matchers
    that follow the JavaScript backtracking semantics of each pattern, and
    [String.prototype.matchAll] by the loop [match_all] that restarts each
    search at the end of the previous match. *)

From Stdlib Require Import ZArith Ascii String.
From stdpp Require Import base list gmap.

Open Scope Z_scope.

(** ** Characters and strings *)

Abbreviation jsstr := (list Z).

(** The literal of a source string (ASCII only). *)
Fixpoint s2u (s : string) : jsstr :=
  match s with
  | EmptyString => []
  | String a t => Z.of_nat (nat_of_ascii a) :: s2u t
  end.

(** [\s] of ECMAScript regular expressions, which is also the set of code
    units removed by [String.prototype.trim]: WhiteSpace and LineTerminator. *)
Definition is_ws (c : Z) : bool :=
  (c =? 9) || (c =? 10) || (c =? 11) || (c =? 12) || (c =? 13) || (c =? 32)
  || (c =? 160) || (c =? 5760) || ((8192 <=? c) && (c <=? 8202))
  || (c =? 8232) || (c =? 8233) || (c =? 8239) || (c =? 8287)
  || (c =? 12288) || (c =? 65279).

(** [\d] (without the [u] flag: ASCII digits only). *)
Definition is_digit (c : Z) : bool := (48 <=? c) && (c <=? 57).

(** [[A-Z]]. *)
Definition is_upper (c : Z) : bool := (65 <=? c) && (c <=? 90).

Fixpoint trim_start (s : jsstr) : jsstr :=
  match s with
  | c :: t => if is_ws c then trim_start t else s
  | [] => []
  end.

(** [String.prototype.trim]. *)
Definition trim (s : jsstr) : jsstr := rev (trim_start (rev (trim_start s))).

(** [s.startsWith(p)]. *)
Fixpoint starts_with (p s : jsstr) : bool :=
  match p, s with
  | [], _ => true
  | a :: p', b :: s' => (a =? b) && starts_with p' s'
  | _ :: _, [] => false
  end.

(** Greedy [\S+]/[\S*]: the longest run of non-whitespace code units at the
    start, and what follows it. *)
Fixpoint span_nonws (s : jsstr) : jsstr * jsstr :=
  match s with
  | c :: t =>
      if is_ws c then ([], s)
      else let '(run, rest) := span_nonws t in (c :: run, rest)
  | [] => ([], [])
  end.

(** [text.split("\n")]. *)
Fixpoint split_lf (s : jsstr) : list jsstr :=
  match s with
  | [] => [[]]
  | c :: t =>
      if c =? 10 then [] :: split_lf t
      else match split_lf t with
           | l :: ls => (c :: l) :: ls
           | [] => [[c]]
           end
  end.

(** [parts.join("\n")]. *)
Fixpoint join_lf (l : list jsstr) : jsstr :=
  match l with
  | [] => []
  | [x] => x
  | x :: t => x ++ 10 :: join_lf t
  end.

(** ** Regular expressions *)

(** The result array of a successful [exec]: [m[0]] and the capture groups. *)
Record regex_match := {
  m0 : jsstr;
  groups : list jsstr
}.

(** [/^\(([A-Z])\)\s/] applied to [s] (anchored: only index 0). *)
Definition priority_regex (s : jsstr) : option regex_match :=
  match s with
  | lp :: c :: rp :: w :: _ =>
      if (lp =? 40) && is_upper c && (rp =? 41) && is_ws w
      then Some {| m0 := [lp; c; rp; w]; groups := [[c]] |}
      else None
  | _ => None
  end.

(** [/^(\d{4}-\d{2}-\d{2})\s/] applied to [s]. *)
Definition date_regex (s : jsstr) : option regex_match :=
  match s with
  | y1 :: y2 :: y3 :: y4 :: h1 :: m1 :: m2 :: h2 :: d1 :: d2 :: w :: _ =>
      if is_digit y1 && is_digit y2 && is_digit y3 && is_digit y4
         && (h1 =? 45) && is_digit m1 && is_digit m2 && (h2 =? 45)
         && is_digit d1 && is_digit d2 && is_ws w
      then Some {| m0 := [y1; y2; y3; y4; h1; m1; m2; h2; d1; d2; w];
                   groups := [[y1; y2; y3; y4; h1; m1; m2; h2; d1; d2]] |}
      else None
  | _ => None
  end.

(** One attempt of [/(?:^|\s)S(\S+)/g] (with [S] the sigil ['+'] or ['@'])
    at the current index; [at_start] says that the index is 0, where [^]
    holds.  The alternatives are tried in order: first [^], then [\s].  On
    success we return the match and the text after it. *)
Definition sigil_body (sigil : Z) (s : jsstr) : option (jsstr * jsstr) :=
  match s with
  | p :: c :: t =>
      if (p =? sigil) && negb (is_ws c)
      then Some (span_nonws (c :: t))
      else None
  | _ => None
  end.

Definition sigil_attempt (sigil : Z) (at_start : bool) (s : jsstr)
  : option (regex_match * jsstr) :=
  match (if at_start then sigil_body sigil s else None) with
  | Some (run, rest) => Some ({| m0 := sigil :: run; groups := [run] |}, rest)
  | None =>
      match s with
      | w :: t =>
          if is_ws w then
            match sigil_body sigil t with
            | Some (run, rest) =>
                Some ({| m0 := w :: sigil :: run; groups := [run] |}, rest)
            | None => None
            end
          else None
      | [] => None
      end
  end.

(** The lazy key [(\S+?)] of [/(\S+?):(\S+)/g]: [key_rev] is the key read so
    far (reversed, non-empty).  First try [:] followed by a greedy [\S+];
    otherwise extend the key by one non-whitespace code unit. *)
Fixpoint lazy_key (key_rev : jsstr) (s : jsstr) : option (jsstr * jsstr * jsstr) :=
  match s with
  | col :: t =>
      let colon_ok :=
        match t with
        | c :: _ => (col =? 58) && negb (is_ws c)
        | [] => false
        end in
      if colon_ok then
        let '(value, rest) := span_nonws t in Some (rev key_rev, value, rest)
      else if is_ws col then None
      else lazy_key (col :: key_rev) t
  | [] => None
  end.

Definition tag_attempt (_ : bool) (s : jsstr) : option (regex_match * jsstr) :=
  match s with
  | c :: t =>
      if is_ws c then None
      else match lazy_key [c] t with
           | Some (key, value, rest) =>
               Some ({| m0 := key ++ 58 :: value; groups := [key; value] |}, rest)
           | None => None
           end
  | [] => None
  end.

(** [str.matchAll(re)] for a global regex: search from the current index,
    and after a match restart at its end ([lastIndex]).  [fuel] bounds the
    number of steps; [S (length s)] is always enough (see
    [match_all_unfold]). *)
Fixpoint match_all_fuel (attempt : bool -> jsstr -> option (regex_match * jsstr))
  (fuel : nat) (at_start : bool) (s : jsstr) : list regex_match :=
  match fuel with
  | O => []
  | S f =>
      match attempt at_start s with
      | Some (m, rest) => m :: match_all_fuel attempt f false rest
      | None =>
          match s with
          | [] => []
          | _ :: t => match_all_fuel attempt f false t
          end
      end
  end.

Definition match_all (attempt : bool -> jsstr -> option (regex_match * jsstr))
  (s : jsstr) : list regex_match :=
  match_all_fuel attempt (S (length s)) true s.

(** [m[i]] of a match array ([undefined] as [None]). *)
Definition group (m : regex_match) (i : nat) : option jsstr :=
  match i with
  | O => Some (m0 m)
  | S j => groups m !! j
  end.

(** JavaScript truthiness of an optional string. *)
Definition truthy (o : option jsstr) : bool :=
  match o with
  | Some (_ :: _) => true
  | _ => false
  end.

(** ** The data model: src/src/types.ts *)

(** [Record<string, string>]: a plain object literal [{}]. *)
Abbreviation jsobj := (gmap jsstr jsstr).

Record Todo := {
  completed : bool;
  priority : option jsstr;
  completionDate : option jsstr;
  creationDate : option jsstr;
  description : jsstr;
  projects : list jsstr;
  contexts : list jsstr;
  tags : jsobj;
  raw : jsstr
}.

(** [obj[k] = v] on an object whose prototype is [Object.prototype]: the key
    ["__proto__"] reaches the inherited accessor, whose setter ignores a
    string value, so no own property is created. *)
Definition set_prop (o : jsobj) (k v : jsstr) : jsobj :=
  if decide (k = s2u "__proto__") then o else <[k := v]> o.

(** ** The line grammar: parseTodoLine *)

(** Lines 53 and 57: the completion mark, and the remaining text. *)
Definition completion_stage (trimmed : jsstr) : bool * jsstr :=
  let completed := starts_with (s2u "x ") trimmed in
  let remaining := if completed then trim (drop 2 trimmed) else trimmed in
  (completed, remaining).

(** Lines 56-63: the priority. *)
Definition priority_stage (remaining : jsstr) : option jsstr * jsstr :=
  match priority_regex remaining with
  | Some pm => (group pm 1, drop (length (m0 pm)) remaining)
  | None => (None, remaining)
  end.

(** Lines 66-90: the dates; returns (completionDate, creationDate, remaining). *)
Definition date_stage (completed : bool) (remaining : jsstr)
  : option jsstr * option jsstr * jsstr :=
  match date_regex remaining with
  | Some fm =>
      let remaining := drop (length (m0 fm)) remaining in
      match date_regex remaining with
      | Some sm => (group fm 1, group sm 1, drop (length (m0 sm)) remaining)
      | None =>
          if completed then (group fm 1, None, remaining)
          else (None, group fm 1, remaining)
      end
  | None => (None, None, remaining)
  end.

(** Lines 97-110: the loops over [matchAll] that push [match[1]] when it is
    truthy. *)
Definition collect_sigil (sigil : Z) (trimmed : jsstr) : list jsstr :=
  fold_left (fun acc m =>
               match group m 1 with
               | Some ((_ :: _) as g) => acc ++ [g]
               | _ => acc
               end)
            (match_all (sigil_attempt sigil) trimmed) [].

(** Lines 113-120. *)
Definition tag_step (tags : jsobj) (m : regex_match) : jsobj :=
  match group m 1, group m 2 with
  | Some ((_ :: _) as k), Some ((_ :: _) as v) =>
      if negb (starts_with [43] (m0 m)) && negb (starts_with [64] (m0 m))
      then set_prop tags k v
      else tags
  | _, _ => tags
  end.

Definition collect_tags (trimmed : jsstr) : jsobj :=
  fold_left tag_step (match_all tag_attempt trimmed) ∅.

Definition parseTodoLine (line : jsstr) : Todo :=
  let trimmed := trim line in
  let '(completed, remaining) := completion_stage trimmed in
  let '(priority, remaining) := priority_stage remaining in
  let '(completionDate, creationDate, remaining) := date_stage completed remaining in
  {| completed := completed;
     priority := priority;
     completionDate := completionDate;
     creationDate := creationDate;
     description := remaining;
     projects := collect_sigil 43 trimmed;
     contexts := collect_sigil 64 trimmed;
     tags := collect_tags trimmed;
     raw := line |}.

(** ** serializeTodo *)

Definition serializeTodo (todo : Todo) : jsstr :=
  let result := [] in
  let result := if completed todo then result ++ s2u "x " else result in
  let result :=
    if truthy (priority todo)
    then result ++ s2u "(" ++ default [] (priority todo) ++ s2u ") "
    else result in
  let result :=
    if completed todo && truthy (completionDate todo)
    then result ++ default [] (completionDate todo) ++ s2u " "
    else result in
  let result :=
    if truthy (creationDate todo)
    then result ++ default [] (creationDate todo) ++ s2u " "
    else result in
  result ++ description todo.

(** ** Buffer operations *)

Definition parseTodoTxt (text : jsstr) : list Todo :=
  fold_left (fun todos line =>
               if negb (Nat.eqb (length (trim line)) 0)
               then todos ++ [parseTodoLine line]
               else todos)
            (split_lf text) [].

Definition updateTodoInList (todos : list Todo) (index : Z) (updatedTodo : Todo) : jsstr :=
  if Nat.eqb (length todos) 0 then []
  else if (index <? 0) || (Z.of_nat (length todos) <=? index)
  then join_lf (map serializeTodo todos)
  else join_lf (map serializeTodo (<[Z.to_nat index := updatedTodo]> todos)).

Definition appendTaskToFile (content : jsstr) (newTask : Todo) : jsstr :=
  let serializedTask := serializeTodo newTask in
  if Nat.eqb (length content) 0 then serializedTask
  else content ++ 10 :: serializedTask.

Definition updateTaskAtLine (content : jsstr) (lineIndex : Z) (updatedTodo : Todo) : jsstr :=
  if Nat.eqb (length content) 0 then []
  else
    let todos := parseTodoTxt content in
    if (lineIndex <? 0) || (Z.of_nat (length todos) <=? lineIndex) then content
    else updateTodoInList todos lineIndex updatedTodo.

(** [array.filter((_x, index) => index !== lineIndex)]. *)
Fixpoint filter_index_ne {A} (l : list A) (index : nat) (lineIndex : Z) : list A :=
  match l with
  | [] => []
  | x :: t =>
      if Z.of_nat index =? lineIndex then filter_index_ne t (S index) lineIndex
      else x :: filter_index_ne t (S index) lineIndex
  end.

Definition deleteTaskAtLine (content : jsstr) (lineIndex : Z) : jsstr :=
  if Nat.eqb (length content) 0 then []
  else
    let todos := parseTodoTxt content in
    if (lineIndex <? 0) || (Z.of_nat (length todos) <=? lineIndex) then content
    else
      let updatedTodos := filter_index_ne todos 0 lineIndex in
      if Nat.eqb (length updatedTodos) 0 then []
      else join_lf (map serializeTodo updatedTodos).

(** ** Descriptions of the grammar in the words of the specification *)

(** Projects (sigil ['+']) and contexts (sigil ['@']): at every position
    holding the sigil that is at index 0 or immediately preceded by
    whitespace, the greedy non-whitespace run that follows it, if non-empty;
    [at_boundary] says whether the current position is such a position. *)
Fixpoint sigil_runs (sigil : Z) (at_boundary : bool) (s : jsstr) : list jsstr :=
  match s with
  | [] => []
  | c :: t =>
      let later := sigil_runs sigil (is_ws c) t in
      if at_boundary && (c =? sigil) then
        match fst (span_nonws t) with
        | [] => later
        | run => run :: later
        end
      else later
  end.

(** The whitespace-separated tokens of a string, left to right ([cur] is the
    current token, reversed). *)
Fixpoint words_acc (cur : jsstr) (s : jsstr) : list jsstr :=
  match s with
  | [] => match cur with [] => [] | _ => [rev cur] end
  | c :: t =>
      if is_ws c then
        match cur with
        | [] => words_acc [] t
        | _ => rev cur :: words_acc [] t
        end
      else words_acc (c :: cur) t
  end.

Definition words (s : jsstr) : list jsstr := words_acc [] s.

(** The text before the first colon, and the text after it. *)
Fixpoint break_colon (s : jsstr) : option (jsstr * jsstr) :=
  match s with
  | [] => None
  | c :: t =>
      if c =? 58 then Some ([], t)
      else match break_colon t with
           | Some (a, b) => Some (c :: a, b)
           | None => None
           end
  end.

(** The tag of one token: the key is the first code unit of the token and
    everything up to the next colon, the value everything after that colon,
    which must be non-empty. *)
Definition token_tag (t : jsstr) : option (jsstr * jsstr) :=
  match t with
  | c :: t' =>
      match break_colon t' with
      | Some (a, (_ :: _) as b) => Some (c :: a, b)
      | _ => None
      end
  | [] => None
  end.

(** The regex match of [/(\S+?):(\S+)/] that a token yields. *)
Definition token_match (t : jsstr) : list regex_match :=
  match token_tag t with
  | Some (k, v) => [{| m0 := k ++ 58 :: v; groups := [k; v] |}]
  | None => []
  end.

(** The (key, value) pairs of a line, left to right, skipping the tokens that
    begin with ['+'] or ['@']. *)
Definition tag_pairs (s : jsstr) : list (jsstr * jsstr) :=
  omap (fun t => if starts_with [43] t || starts_with [64] t then None
                 else token_tag t) (words s).

(** The value of the rightmost pair with key [k]. *)
Definition last_value (k : jsstr) (ps : list (jsstr * jsstr)) : option jsstr :=
  last (omap (fun '(k', v) => if decide (k' = k) then Some v else None) ps).

(** The tag of a token as the spec reads it: the key is the text before the
    first colon, the value the text after it, and both must be non-empty. *)
Definition first_colon_tag (t : jsstr) : option (jsstr * jsstr) :=
  match break_colon t with
  | Some ((_ :: _) as a, (_ :: _) as b) => Some (a, b)
  | _ => None
  end.

(** The (key, value) pairs of a line as the spec reads them, left to right,
    skipping the tokens that begin with ['+'] or ['@']. *)
Definition first_colon_pairs (s : jsstr) : list (jsstr * jsstr) :=
  omap (fun t => if starts_with [43] t || starts_with [64] t then None
                 else first_colon_tag t) (words s).

(** A date token: 4 digits, ['-'], 2 digits, ['-'], 2 digits. *)
Definition date_tok (d : jsstr) : bool :=
  match d with
  | [y1; y2; y3; y4; h1; m1; m2; h2; d1; d2] =>
      is_digit y1 && is_digit y2 && is_digit y3 && is_digit y4
      && (h1 =? 45) && is_digit m1 && is_digit m2 && (h2 =? 45)
      && is_digit d1 && is_digit d2
  | _ => false
  end.

(** [s] starts with the date token [d] followed by one whitespace code unit,
    and [rest] follows. *)
Definition starts_with_date (s d rest : jsstr) : Prop :=
  exists w, s = d ++ w :: rest /\ date_tok d = true /\ is_ws w = true.

(** [u] is the tokens [ts] in order, each followed by one whitespace code
    unit. *)
Fixpoint toks_ws (ts : list jsstr) (u : jsstr) : Prop :=
  match ts with
  | [] => u = []
  | t :: ts' => exists w u', is_ws w = true /\ u = t ++ w :: u' /\ toks_ws ts' u'
  end.

Definition opt_list {A} (o : option A) : list A :=
  match o with Some x => [x] | None => [] end.

(** [serializeTodo] in the words of the specification: the present pieces in
    order, then the description. *)
Definition serialize_pieces (todo : Todo) : list jsstr :=
  (if completed todo then [s2u "x "] else [])
  ++ (match priority todo with
      | Some ((_ :: _) as p) => [s2u "(" ++ p ++ s2u ") "]
      | _ => [] end)
  ++ (match completed todo, completionDate todo with
      | true, Some ((_ :: _) as d) => [d ++ s2u " "]
      | _, _ => [] end)
  ++ (match creationDate todo with
      | Some ((_ :: _) as d) => [d ++ s2u " "]
      | _ => [] end)
  ++ [description todo].

(** The lines of a text that [parseTodoTxt] keeps. *)
Definition kept_lines (text : jsstr) : list jsstr :=
  List.filter (fun line => negb (Nat.eqb (length (trim line)) 0)) (split_lf text).

(** ** Shapes of a parsed line, used by the proofs *)

(** The text after a token: empty or starting with whitespace. *)
Definition rest_ok (rest : jsstr) : Prop :=
  match rest with c :: _ => is_ws c = true | [] => True end.

(** The string does not begin with whitespace. *)
Definition no_lead_ws (s : jsstr) : Prop :=
  match s with c :: _ => is_ws c = false | [] => True end.

(** A string that [trim] leaves unchanged. *)
Definition trimmed (s : jsstr) : Prop := no_lead_ws s /\ no_lead_ws (rev s).

(** The priority token [(P)]. *)
Definition prio_tok (p : jsstr) : jsstr := [40] ++ p ++ [41].

(** [P] is the priority prefix recognised for [p] in front of [rest]. *)
Definition prio_shape (p : option jsstr) (P rest : jsstr) : Prop :=
  (p = None /\ P = [] /\ priority_regex rest = None)
  \/ (exists ch w, p = Some [ch] /\ P = [40; ch; 41; w]
                   /\ is_upper ch = true /\ is_ws w = true).

(** A trimmed line [T]: the optional completion mark followed by whitespace
    [W], the priority prefix [P], then the text [Rd] left for the dates. *)
Definition head_shape (T : jsstr) (c : bool) (p : option jsstr) (W P Rd : jsstr) : Prop :=
  T = (if c then [120; 32] ++ W else []) ++ P ++ Rd
  /\ Forall (fun x => is_ws x = true) W
  /\ (if c then no_lead_ws (P ++ Rd) else starts_with [120; 32] T = false)
  /\ prio_shape p P Rd.

(** [D] is the date prefix made of the date tokens [ds] in front of the
    description [desc]. *)
Definition dates_shape (ds : list jsstr) (D desc : jsstr) : Prop :=
  Forall (fun d => date_tok d = true) ds /\ toks_ws ds D /\ (length ds <= 2)%nat
  /\ ((length ds < 2)%nat -> date_regex desc = None).

(** How the recognised dates become (completionDate, creationDate). *)
Definition assign_dates (c : bool) (ds : list jsstr) : option jsstr * option jsstr :=
  match ds with
  | [] => (None, None)
  | [d] => if c then (Some d, None) else (None, Some d)
  | d1 :: d2 :: _ => (Some d1, Some d2)
  end.

(** The pieces that [serializeTodo] writes for the priority and the dates. *)
Definition ser_prio (p : option jsstr) : jsstr :=
  match p with Some ((_ :: _) as q) => [40] ++ q ++ [41; 32] | _ => [] end.

Definition ser_dates (c : bool) (cd cr : option jsstr) : jsstr :=
  (if c && truthy cd then default [] cd ++ [32] else [])
  ++ (if truthy cr then default [] cr ++ [32] else []).

(** The dates of [assign_dates c ds] that [serializeTodo] writes back. *)
Definition emitted_dates (c : bool) (ds : list jsstr) : list jsstr :=
  match c, ds with false, [_; d2] => [d2] | _, _ => ds end.

(** Empty, or ending with whitespace. *)
Definition ews (u : jsstr) : Prop :=
  u = [] \/ exists u' w, u = u' ++ [w] /\ is_ws w = true.

(** ** Exceptions

    The operations that can raise in the source are reads of a property of
    [undefined] or [null]: [m[0].length] and [m[0].startsWith] on a match
    array.  [js_result] makes the exception explicit; the [_js] functions are
    the parser with these reads made partial. *)

Inductive js_error := TypeError.

Inductive js_result (A : Type) :=
| Normal : A -> js_result A
| Throw : js_error -> js_result A.
Arguments Normal {A} _.
Arguments Throw {A} _.

Global Instance js_ret : MRet js_result := fun A a => Normal a.
Global Instance js_bind : MBind js_result :=
  fun A B f m => match m with Normal a => f a | Throw e => Throw e end.

(** Using a slot of a match array as a string ([undefined] raises). *)
Definition read_str (o : option jsstr) : js_result jsstr :=
  match o with Some s => Normal s | None => Throw TypeError end.

(** A [for ... of] loop over a list whose body may raise. *)
Fixpoint js_fold_left {A B} (f : A -> B -> js_result A) (l : list B) (a : A) : js_result A :=
  match l with
  | [] => mret a
  | x :: t => a' ← f a x; js_fold_left f t a'
  end.

Definition priority_stage_js (remaining : jsstr) : js_result (option jsstr * jsstr) :=
  match priority_regex remaining with
  | Some pm => m0s ← read_str (group pm 0); mret (group pm 1, drop (length m0s) remaining)
  | None => mret (None, remaining)
  end.

Definition date_stage_js (completed : bool) (remaining : jsstr)
  : js_result (option jsstr * option jsstr * jsstr) :=
  match date_regex remaining with
  | Some fm =>
      f0 ← read_str (group fm 0);
      let remaining := drop (length f0) remaining in
      match date_regex remaining with
      | Some sm => s0 ← read_str (group sm 0);
                   mret (group fm 1, group sm 1, drop (length s0) remaining)
      | None =>
          mret (if completed then (group fm 1, None, remaining)
                else (None, group fm 1, remaining))
      end
  | None => mret (None, None, remaining)
  end.

Definition tag_step_js (tags : jsobj) (m : regex_match) : js_result jsobj :=
  match group m 1, group m 2 with
  | Some ((_ :: _) as k), Some ((_ :: _) as v) =>
      s0 ← read_str (group m 0);
      mret (if negb (starts_with [43] s0) && negb (starts_with [64] s0)
            then set_prop tags k v else tags)
  | _, _ => mret tags
  end.

Definition parseTodoLine_js (line : jsstr) : js_result Todo :=
  let trimmed := trim line in
  let '(completed, remaining) := completion_stage trimmed in
  '(priority, remaining) ← priority_stage_js remaining;
  '(completionDate, creationDate, remaining) ← date_stage_js completed remaining;
  tags ← js_fold_left tag_step_js (match_all tag_attempt trimmed) ∅;
  mret {| completed := completed; priority := priority;
          completionDate := completionDate; creationDate := creationDate;
          description := remaining;
          projects := collect_sigil 43 trimmed; contexts := collect_sigil 64 trimmed;
          tags := tags; raw := line |}.

Definition parseTodoTxt_js (text : jsstr) : js_result (list Todo) :=
  js_fold_left (fun todos line =>
                  if negb (Nat.eqb (length (trim line)) 0)
                  then t ← parseTodoLine_js line; mret (todos ++ [t])
                  else mret todos)
               (split_lf text) [].

Definition updateTaskAtLine_js (content : jsstr) (lineIndex : Z) (updatedTodo : Todo)
  : js_result jsstr :=
  if Nat.eqb (length content) 0 then mret []
  else
    todos ← parseTodoTxt_js content;
    if (lineIndex <? 0) || (Z.of_nat (length todos) <=? lineIndex) then mret content
    else mret (updateTodoInList todos lineIndex updatedTodo).

Definition deleteTaskAtLine_js (content : jsstr) (lineIndex : Z) : js_result jsstr :=
  if Nat.eqb (length content) 0 then mret []
  else
    todos ← parseTodoTxt_js content;
    if (lineIndex <? 0) || (Z.of_nat (length todos) <=? lineIndex) then mret content
    else
      let updatedTodos := filter_index_ne todos 0 lineIndex in
      if Nat.eqb (length updatedTodos) 0 then mret []
      else mret (join_lf (map serializeTodo updatedTodos)).

Definition grammar_fields (r : Todo) :=
  (completed r, priority r, projects r, contexts r, tags r).

Definition single_line (s : jsstr) : Prop := Forall (fun c => c <> 10) s /\ trim s <> [].

Definition without_raw (r : Todo) : Todo :=
  {| completed := completed r; priority := priority r; completionDate := completionDate r;
     creationDate := creationDate r; description := description r; projects := projects r;
     contexts := contexts r; tags := tags r; raw := [] |}.

Definition ws_free_token (x : jsstr) : Prop := x <> [] /\ Forall (fun c => is_ws c = false) x.

(** * Proofs *)

(** Tests of the embedding against the repository's test suite. *)
Example parse_test_1 :
  let r := parseTodoLine (s2u "(A) 2026-01-08 Call Mom +Family @phone due:2026-01-15") in
  priority r = Some (s2u "A") /\ creationDate r = Some (s2u "2026-01-08")
  /\ completionDate r = None
  /\ description r = s2u "Call Mom +Family @phone due:2026-01-15"
  /\ projects r = [s2u "Family"] /\ contexts r = [s2u "phone"]
  /\ tags r = <[s2u "due" := s2u "2026-01-15"]> ∅.
Proof. vm_compute. repeat split. Qed.

Example parse_test_2 :
  let r := parseTodoLine (s2u "x (B) 2026-01-08 2026-01-01 Task completed due:2026-01-15") in
  completed r = true /\ priority r = Some (s2u "B")
  /\ completionDate r = Some (s2u "2026-01-08")
  /\ creationDate r = Some (s2u "2026-01-01")
  /\ description r = s2u "Task completed due:2026-01-15".
Proof. vm_compute. repeat split. Qed.

Example parse_test_3 :
  projects (parseTodoLine (s2u "++double Double plus")) = [s2u "+double"]
  /\ projects (parseTodoLine (s2u "+A+B Chained")) = [s2u "A+B"]
  /\ projects (parseTodoLine (s2u "Task+inline No space")) = []
  /\ contexts (parseTodoLine (s2u "email@example.com Email")) = []
  /\ tags (parseTodoLine (s2u "Task note:some value here end"))
     = <[s2u "note" := s2u "some"]> ∅
  /\ tags (parseTodoLine (s2u "Task key:val:ue")) = <[s2u "key" := s2u "val:ue"]> ∅
  /\ tags (parseTodoLine (s2u "Task key : value")) = ∅
  /\ description (parseTodoLine (s2u "(A)NoSpace")) = s2u "(A)NoSpace"
  /\ creationDate (parseTodoLine (s2u "2024-13-01 Invalid month")) = Some (s2u "2024-13-01").
Proof. vm_compute. repeat split. Qed.

Example buffer_test_1 :
  deleteTaskAtLine (s2u "(A) 2026-01-01 Call Mom") 0 = []
  /\ deleteTaskAtLine (s2u "(A) 2026-01-01 Call Mom") (-1) = s2u "(A) 2026-01-01 Call Mom"
  /\ length (parseTodoTxt (s2u "Task 1

Task 2")) = 2%nat
  /\ deleteTaskAtLine (s2u "(A) a
(B) b
(C) c") 1 = s2u "(A) a
(C) c".
Proof. vm_compute. repeat split. Qed.

(** ** Basic facts on the string functions *)

Lemma span_nonws_spec (s run rest : jsstr) :
  span_nonws s = (run, rest) ->
  s = run ++ rest /\ Forall (fun c => is_ws c = false) run
  /\ match rest with c :: _ => is_ws c = true | [] => True end.
Proof.
  revert run rest. induction s as [|c t IH]; intros run rest H; simpl in H.
  - inversion H; subst. auto.
  - destruct (is_ws c) eqn:Hc.
    + inversion H; subst. simpl. auto.
    + destruct (span_nonws t) as [r0 s0] eqn:Ht. inversion H; subst.
      destruct (IH _ _ eq_refl) as (-> & Hf & Hr). simpl. auto.
Qed.

Lemma span_nonws_app (x rest : jsstr) :
  Forall (fun c => is_ws c = false) x ->
  match rest with c :: _ => is_ws c = true | [] => True end ->
  span_nonws (x ++ rest) = (x, rest).
Proof.
  intros Hx Hr. induction Hx as [|c x Hc Hx IH]; simpl.
  - destruct rest as [|c t]; simpl; [reflexivity|]. rewrite Hr. reflexivity.
  - rewrite Hc, IH. reflexivity.
Qed.

Lemma span_nonws_length (s run rest : jsstr) :
  span_nonws s = (run, rest) -> (length rest <= length s)%nat.
Proof.
  intros H. destruct (span_nonws_spec _ _ _ H) as (-> & _ & _).
  rewrite length_app. lia.
Qed.

Lemma fst_span_nonws_ws (x t : jsstr) (w : Z) :
  is_ws w = true -> fst (span_nonws (x ++ w :: t)) = fst (span_nonws x).
Proof.
  intros Hw. induction x as [|c x IH]; simpl.
  - rewrite Hw. reflexivity.
  - destruct (is_ws c); [reflexivity|].
    destruct (span_nonws (x ++ w :: t)) as [a b] eqn:E1.
    destruct (span_nonws x) as [a' b'] eqn:E2. simpl in *. congruence.
Qed.

(** ** matchAll without fuel *)

Section MatchAll.
Variable attempt : bool -> jsstr -> option (regex_match * jsstr).
Hypothesis attempt_shrinks : forall b s m rest,
    attempt b s = Some (m, rest) -> (length rest < length s)%nat.

Lemma match_all_fuel_enough (f1 f2 : nat) (b : bool) (s : jsstr) :
    (length s < f1)%nat -> (length s < f2)%nat ->
    match_all_fuel attempt f1 b s = match_all_fuel attempt f2 b s.
  Proof.
    revert f2 b s. induction f1 as [|f1 IH]; intros f2 b s H1 H2; [lia|].
    destruct f2 as [|f2]; [lia|]. simpl.
    destruct (attempt b s) as [[m rest]|] eqn:E.
    - apply attempt_shrinks in E. f_equal. apply IH; lia.
    - destruct s as [|c t]; [reflexivity|]. simpl in *. apply IH; lia.
  Qed.

Lemma match_all_step (b : bool) (s : jsstr) :
    match_all_fuel attempt (S (length s)) b s =
    match attempt b s with
    | Some (m, rest) => m :: match_all_fuel attempt (S (length rest)) false rest
    | None =>
        match s with
        | [] => []
        | _ :: t => match_all_fuel attempt (S (length t)) false t
        end
    end.
  Proof.
    change (match_all_fuel attempt (S (length s)) b s) with
      (match attempt b s with
       | Some (m, rest) => m :: match_all_fuel attempt (length s) false rest
       | None =>
           match s with
           | [] => []
           | _ :: t => match_all_fuel attempt (length s) false t
           end
       end).
    destruct (attempt b s) as [[m rest]|] eqn:E.
    - apply attempt_shrinks in E. f_equal. apply match_all_fuel_enough; lia.
    - destruct s as [|c t]; [reflexivity|]. apply match_all_fuel_enough; simpl; lia.
  Qed.
End MatchAll.

(** ** Projects and contexts *)

Definition push_group (m : regex_match) : list jsstr :=
  match group m 1 with
  | Some ((_ :: _) as g) => [g]
  | _ => []
  end.

Lemma collect_sigil_flat_map (sigil : Z) (trimmed : jsstr) :
  collect_sigil sigil trimmed
  = flat_map push_group (match_all (sigil_attempt sigil) trimmed).
Proof.
  unfold collect_sigil.
  generalize (match_all (sigil_attempt sigil) trimmed) as ms.
  assert (Hgen : forall ms acc,
    fold_left (fun acc m =>
                 match group m 1 with
                 | Some ((_ :: _) as g) => acc ++ [g]
                 | _ => acc
                 end) ms acc = acc ++ flat_map push_group ms).
  { induction ms as [|m ms IH]; intros acc; cbn [fold_left flat_map].
    - rewrite app_nil_r. reflexivity.
    - rewrite IH. unfold push_group.
      destruct (group m 1) as [[|g gs]|]; rewrite <- ?app_assoc; reflexivity. }
  intros ms. rewrite Hgen. reflexivity.
Qed.

Lemma sigil_attempt_shrinks (sigil : Z) (b : bool) (s : jsstr) m rest :
  sigil_attempt sigil b s = Some (m, rest) -> (length rest < length s)%nat.
Proof.
  unfold sigil_attempt. intros H.
  destruct (if b then sigil_body sigil s else None) as [[run rest0]|] eqn:E1.
  - injection H as _ <-. destruct b; [|discriminate].
    unfold sigil_body in E1. destruct s as [|p [|c t]]; try discriminate.
    destruct (_ && _); [|discriminate].
    assert (Hs : span_nonws (c :: t) = (run, rest0)) by congruence.
    apply span_nonws_length in Hs. simpl in *. lia.
  - destruct s as [|w t]; [discriminate|]. destruct (is_ws w); [|discriminate].
    destruct (sigil_body sigil t) as [[run rest0]|] eqn:E2; [|discriminate].
    injection H as _ <-. unfold sigil_body in E2.
    destruct t as [|p [|c t]]; try discriminate.
    destruct (_ && _); [|discriminate].
    assert (Hs : span_nonws (c :: t) = (run, rest0)) by congruence.
    apply span_nonws_length in Hs. simpl in *. lia.
Qed.

Lemma sigil_runs_skip (sigil : Z) (x r : jsstr) :
  Forall (fun c => is_ws c = false) x ->
  sigil_runs sigil false (x ++ r) = sigil_runs sigil false r.
Proof.
  intros Hx. induction Hx as [|c x Hc Hx IH]; simpl; [reflexivity|].
  rewrite Hc. exact IH.
Qed.

Lemma sigil_runs_flag (sigil : Z) (t : jsstr) :
  sigil_body sigil t = None ->
  sigil_runs sigil true t = sigil_runs sigil false t.
Proof.
  destruct t as [|c [|c' t']]; simpl; intros H; [reflexivity| |].
  - destruct (c =? sigil); reflexivity.
  - destruct (c =? sigil) eqn:Ec; simpl in *; [|reflexivity].
    destruct (is_ws c') eqn:Ew; simpl in *; [reflexivity|discriminate].
Qed.

Lemma sigil_runs_cons (sigil : Z) (b : bool) (c : Z) (t : jsstr) :
  sigil_runs sigil b (c :: t) =
  if b && (c =? sigil) then
    match fst (span_nonws t) with
    | [] => sigil_runs sigil (is_ws c) t
    | run => run :: sigil_runs sigil (is_ws c) t
    end
  else sigil_runs sigil (is_ws c) t.
Proof. reflexivity. Qed.

Lemma span_nonws_nonempty (c : Z) (t run rest : jsstr) :
  is_ws c = false -> span_nonws (c :: t) = (run, rest) ->
  exists r0, run = c :: r0.
Proof.
  intros Hc H. simpl in H. rewrite Hc in H.
  destruct (span_nonws t) as [r0 s0]. injection H as <- _. eauto.
Qed.

Lemma sigil_matches (sigil : Z) : is_ws sigil = false ->
  forall n b s, (length s <= n)%nat ->
  flat_map push_group (match_all_fuel (sigil_attempt sigil) (S (length s)) b s)
  = sigil_runs sigil b s.
Proof.
  intros Hsig n. induction n as [|n IH]; intros b s Hlen.
  - destruct s; [|simpl in Hlen; lia]. destruct b; reflexivity.
  - rewrite match_all_step by apply sigil_attempt_shrinks.
    destruct s as [|c [|c' t]].
    + destruct b; reflexivity.
    + unfold sigil_attempt, sigil_body. simpl.
      destruct b, (c =? sigil), (is_ws c); reflexivity.
    + simpl in Hlen.
      assert (Hcs : is_ws c = true -> (c =? sigil) = false).
      { intros Hc. apply Z.eqb_neq. intros ->. congruence. }
      unfold sigil_attempt.
      destruct (if b then sigil_body sigil (c :: c' :: t) else None)
        as [[run rest]|] eqn:E1.
      * (* the [^] alternative: a sigil at index 0 *)
        destruct b; [|discriminate]. unfold sigil_body in E1.
        destruct (c =? sigil) eqn:Ec; [|discriminate].
        destruct (is_ws c') eqn:Ec'; [discriminate|].
        cbn [andb negb] in E1.
        assert (Hs : span_nonws (c' :: t) = (run, rest)) by congruence.
        pose proof (span_nonws_spec _ _ _ Hs) as (Hsplit & Hrun & _).
        pose proof (span_nonws_length _ _ _ Hs) as Hrl.
        destruct (span_nonws_nonempty _ _ _ _ Ec' Hs) as [r0 ->].
        cbn [flat_map]. rewrite IH by (simpl in *; lia).
        rewrite sigil_runs_cons, Ec, Hs. cbn [andb fst].
        apply Z.eqb_eq in Ec. subst c. rewrite Hsig, Hsplit, sigil_runs_skip by exact Hrun.
        reflexivity.
      * destruct (is_ws c) eqn:Ewc.
        -- destruct (sigil_body sigil (c' :: t)) as [[run rest]|] eqn:E2.
           ++ (* the [\s] alternative *)
              unfold sigil_body in E2. destruct t as [|c'' t'']; [discriminate|].
              destruct (c' =? sigil) eqn:Ec'; [|discriminate].
              destruct (is_ws c'') eqn:Ec''; [discriminate|].
              cbn [andb negb] in E2.
              assert (Hs : span_nonws (c'' :: t'') = (run, rest)) by congruence.
              pose proof (span_nonws_spec _ _ _ Hs) as (Hsplit & Hrun & _).
              pose proof (span_nonws_length _ _ _ Hs) as Hrl.
              destruct (span_nonws_nonempty _ _ _ _ Ec'' Hs) as [r0 ->].
              cbn [flat_map]. rewrite IH by (simpl in *; lia).
              rewrite sigil_runs_cons, (Hcs eq_refl), andb_false_r, Ewc.
              rewrite sigil_runs_cons, Ec', Hs. cbn [andb fst].
              apply Z.eqb_eq in Ec'. subst c'.
              rewrite Hsig, Hsplit, sigil_runs_skip by exact Hrun.
              reflexivity.
           ++ rewrite IH by (simpl; lia).
              rewrite (sigil_runs_cons sigil b c), (Hcs eq_refl), andb_false_r, Ewc.
              symmetry. apply sigil_runs_flag. exact E2.
        -- rewrite IH by (simpl; lia).
           rewrite (sigil_runs_cons sigil b c), Ewc.
           destruct (b && (c =? sigil)) eqn:Eb; [|reflexivity].
           apply andb_prop in Eb as [-> Ec]. unfold sigil_body in E1. rewrite Ec in E1.
           destruct (is_ws c') eqn:Ew'; [|discriminate].
           cbn [span_nonws fst]. rewrite Ew'. reflexivity.
Qed.

Lemma projects_contexts_runs (line : jsstr) :
  projects (parseTodoLine line) = sigil_runs 43 true (trim line)
  /\ contexts (parseTodoLine line) = sigil_runs 64 true (trim line).
Proof.
  unfold parseTodoLine.
  destruct (completion_stage (trim line)) as [c r].
  destruct (priority_stage r) as [p r'].
  destruct (date_stage c r') as [[cd cr] r''].
  simpl. rewrite !collect_sigil_flat_map. unfold match_all.
  split; apply sigil_matches with (n := length (trim line)); reflexivity.
Qed.

(** ** Tokens *)

Lemma words_acc_nonws (cur x r : jsstr) :
  Forall (fun c => is_ws c = false) x ->
  words_acc cur (x ++ r) = words_acc (rev x ++ cur) r.
Proof.
  intros Hx. revert cur. induction Hx as [|c x Hc Hx IH]; intros cur; simpl; [reflexivity|].
  rewrite Hc, IH, <- app_assoc. reflexivity.
Qed.

Lemma words_token (tok rest : jsstr) :
  tok <> [] -> Forall (fun c => is_ws c = false) tok -> rest_ok rest ->
  words (tok ++ rest) = tok :: words rest.
Proof.
  intros Hne Hx Hr. unfold words. rewrite words_acc_nonws by exact Hx.
  rewrite app_nil_r.
  assert (Hrev : rev tok <> []).
  { intros E. apply (f_equal (@rev Z)) in E. rewrite rev_involutive in E. contradiction. }
  generalize (rev_involutive tok). generalize (rev tok) as cur. intros cur <-.
  destruct cur as [|c cur]; [contradiction|].
  destruct rest as [|w r]; simpl in Hr |- *; [reflexivity|].
  rewrite Hr. reflexivity.
Qed.

Lemma words_ws_cons (w : Z) (r : jsstr) :
  is_ws w = true -> words (w :: r) = words r.
Proof. intros Hw. unfold words. simpl. rewrite Hw. reflexivity. Qed.

Lemma words_acc_split (cur a b : jsstr) (w : Z) :
  is_ws w = true ->
  words_acc cur (a ++ w :: b) = words_acc cur a ++ words_acc [] b.
Proof.
  intros Hw. revert cur. induction a as [|c a IH]; intros cur; simpl.
  - rewrite Hw. destruct cur; reflexivity.
  - destruct (is_ws c).
    + destruct cur; rewrite IH; reflexivity.
    + apply IH.
Qed.

Lemma words_split (a b : jsstr) (w : Z) :
  is_ws w = true -> words (a ++ w :: b) = words a ++ words b.
Proof. intros Hw. unfold words. apply words_acc_split. exact Hw. Qed.

(** ** Tags *)

Lemma lazy_key_ws (kr rest : jsstr) :
  rest_ok rest -> lazy_key kr rest = None.
Proof.
  intros Hr. destruct rest as [|w t]; simpl in *; [reflexivity|].
  rewrite Hr. destruct (w =? 58) eqn:Ew.
  - apply Z.eqb_eq in Ew. subst w. discriminate.
  - destruct t; reflexivity.
Qed.

Lemma lazy_key_token (kr x rest : jsstr) :
  Forall (fun c => is_ws c = false) x -> rest_ok rest ->
  lazy_key kr (x ++ rest) =
  match break_colon x with
  | Some (a, (_ :: _) as b) => Some (rev kr ++ a, b, rest)
  | _ => None
  end.
Proof.
  intros Hx Hr. revert kr. induction Hx as [|y x Hy Hx IH]; intros kr.
  - apply lazy_key_ws. exact Hr.
  - simpl. destruct (y =? 58) eqn:Ey.
    + destruct x as [|c x'].
      * destruct rest as [|w t]; [simpl; rewrite Hy; reflexivity|].
        change ([] ++ w :: t) with (w :: t).
        rewrite (lazy_key_ws (y :: kr) (w :: t) Hr). simpl in Hr |- *.
        rewrite Hr, Hy. reflexivity.
      * inversion Hx as [|? ? Hc]; subst. simpl. rewrite Hc. simpl.
        rewrite (span_nonws_app x' rest H Hr).
        rewrite app_nil_r. reflexivity.
    + assert (Hco : match x ++ rest with
                    | c :: _ => false && negb (is_ws c)
                    | [] => false end = false)
        by (destruct (x ++ rest); reflexivity).
      rewrite Hco, Hy, IH.
      destruct (break_colon x) as [[a [|b0 b]]|]; try reflexivity.
      simpl. rewrite <- app_assoc. reflexivity.
Qed.

Lemma lazy_key_shrinks (kr s k v rest : jsstr) :
  lazy_key kr s = Some (k, v, rest) -> (length rest < length s)%nat.
Proof.
  revert kr. induction s as [|col t IH]; intros kr H; simpl in H; [discriminate|].
  destruct (match t with c :: _ => (col =? 58) && negb (is_ws c) | [] => false end).
  - destruct (span_nonws t) as [v0 r0] eqn:E. injection H as _ _ <-.
    apply span_nonws_length in E. simpl. lia.
  - destruct (is_ws col); [discriminate|]. apply IH in H. simpl. lia.
Qed.

Lemma tag_attempt_shrinks (b : bool) (s : jsstr) m rest :
  tag_attempt b s = Some (m, rest) -> (length rest < length s)%nat.
Proof.
  unfold tag_attempt. destruct s as [|c t]; [discriminate|].
  destruct (is_ws c); [discriminate|].
  destruct (lazy_key [c] t) as [[[k v] r]|] eqn:E; [|discriminate].
  intros H. injection H as _ <-. apply lazy_key_shrinks in E. simpl. lia.
Qed.

Definition no_tag_colon (x : jsstr) : Prop :=
  forall a b, x = a ++ 58 :: b -> b = [].

Lemma no_tag_colon_of_break (x : jsstr) :
  match break_colon x with Some (_, _ :: _) => False | _ => True end ->
  no_tag_colon x.
Proof.
  induction x as [|y x IH]; intros H a b E.
  - destruct a; discriminate.
  - simpl in H. destruct a as [|y' a]; simpl in E; injection E as -> E.
    + subst x. destruct b; [reflexivity|]. rewrite Z.eqb_refl in H. contradiction.
    + destruct (y' =? 58) eqn:Ey.
      * subst x. destruct (a ++ 58 :: b) eqn:Eab; [destruct a; discriminate|].
        contradiction.
      * apply (IH) with (a := a); [|exact E].
        destruct (break_colon x) as [[? [|? ?]]|]; auto.
Qed.

Lemma tag_fail_skip (x rest : jsstr) :
  Forall (fun c => is_ws c = false) x -> rest_ok rest -> no_tag_colon x ->
  match_all_fuel tag_attempt (S (length (x ++ rest))) false (x ++ rest)
  = match_all_fuel tag_attempt (S (length rest)) false rest.
Proof.
  intros Hx Hr. induction Hx as [|y x Hy Hx IH]; intros Hn; [reflexivity|].
  rewrite match_all_step by apply tag_attempt_shrinks.
  simpl. rewrite Hy, lazy_key_token by assumption.
  destruct (break_colon x) as [[a [|b0 b]]|] eqn:E.
  - apply IH. intros a' b' Eab. apply (Hn (y :: a')). rewrite Eab. reflexivity.
  - exfalso.
    assert (Hx' : x = a ++ 58 :: b0 :: b).
    { clear -E. revert a E. induction x as [|z x IHx]; intros a E; simpl in E; [discriminate|].
      destruct (z =? 58) eqn:Ez.
      - injection E as <- <-. apply Z.eqb_eq in Ez. subst. reflexivity.
      - destruct (break_colon x) as [[a' b']|] eqn:E'; [|discriminate].
        injection E as <- ->. simpl. f_equal. apply IHx. reflexivity. }
    specialize (Hn (y :: a) (b0 :: b)). rewrite Hx' in Hn. discriminate Hn; reflexivity.
  - apply IH. intros a' b' Eab. apply (Hn (y :: a')). rewrite Eab. reflexivity.
Qed.

Lemma tag_matches_words : forall n b s, (length s <= n)%nat ->
  match_all_fuel tag_attempt (S (length s)) b s = flat_map token_match (words s).
Proof.
  induction n as [|n IH]; intros b s Hlen.
  - destruct s; [reflexivity|simpl in Hlen; lia].
  - rewrite match_all_step by apply tag_attempt_shrinks.
    destruct s as [|c t]; [reflexivity|].
    simpl in Hlen. unfold tag_attempt.
    destruct (is_ws c) eqn:Hc.
    + rewrite words_ws_cons by exact Hc. apply IH. lia.
    + destruct (span_nonws t) as [x rest] eqn:Et.
      destruct (span_nonws_spec _ _ _ Et) as (-> & Hx & Hr).
      assert (Htok : words (c :: x ++ rest) = (c :: x) :: words rest).
      { apply (words_token (c :: x) rest); [discriminate|constructor; assumption|exact Hr]. }
      rewrite Htok. cbn [flat_map].
      assert (Hrl : (length rest <= n)%nat) by (rewrite length_app in Hlen; lia).
      rewrite lazy_key_token by assumption.
      unfold token_match at 1, token_tag.
      destruct (break_colon x) as [[a [|b0 bs]]|] eqn:E.
      * rewrite tag_fail_skip by (try assumption; apply no_tag_colon_of_break; rewrite E; exact I).
        apply IH. exact Hrl.
      * cbv beta iota. fold tag_attempt. rewrite (IH false rest Hrl). reflexivity.
      * rewrite tag_fail_skip by (try assumption; apply no_tag_colon_of_break; rewrite E; exact I).
        apply IH. exact Hrl.
Qed.

Lemma tag_step_token (t : jsstr) (o : jsobj) :
  fold_left tag_step (token_match t) o
  = match (if starts_with [43] t || starts_with [64] t then None else token_tag t) with
    | Some (k, v) => set_prop o k v
    | None => o
    end.
Proof.
  destruct t as [|c t']; [reflexivity|].
  unfold token_match, token_tag.
  destruct (break_colon t') as [[a [|b0 b]]|]; cbn [fold_left]; unfold tag_step;
    cbn [starts_with group groups m0 app];
    destruct (43 =? c), (64 =? c); simpl; reflexivity.
Qed.

Lemma collect_tags_pairs (trimmed : jsstr) :
  collect_tags trimmed
  = fold_left (fun o '(k, v) => set_prop o k v) (tag_pairs trimmed) ∅.
Proof.
  unfold collect_tags, match_all, tag_pairs.
  rewrite (tag_matches_words (length trimmed)) by lia.
  generalize (∅ : jsobj) as o. generalize (words trimmed) as ws.
  induction ws as [|t ws IH]; intros o; [reflexivity|].
  cbn [flat_map omap list_omap]. rewrite fold_left_app, tag_step_token.
  destruct (if starts_with [43] t || starts_with [64] t then None else token_tag t)
    as [[k v]|]; cbn [fold_left]; apply IH.
Qed.

Lemma lookup_fold_set_prop (ps : list (jsstr * jsstr)) (o : jsobj) (k : jsstr) :
  k <> s2u "__proto__" ->
  fold_left (fun o '(k, v) => set_prop o k v) ps o !! k
  = match last_value k ps with Some v => Some v | None => o !! k end.
Proof.
  intros Hk. revert o. induction ps as [|[k' v] ps IH]; intros o; [reflexivity|].
  simpl. rewrite IH. unfold last_value. cbn [omap list_omap].
  destruct (decide (k' = k)) as [->|Hne].
  - unfold set_prop. destruct (decide (k = s2u "__proto__")); [contradiction|].
    rewrite (last_cons v). destruct (last _); [reflexivity|].
    rewrite lookup_insert_eq. reflexivity.
  - unfold set_prop. destruct (decide (k' = s2u "__proto__")); [reflexivity|].
    rewrite lookup_insert_ne by exact Hne. reflexivity.
Qed.

(** ** Claims on the annotation scan *)

(** C6: projects (sigil ['+']) and contexts (sigil ['@']) are, left to right
    with duplicates kept, the non-empty greedy non-whitespace runs after each
    sigil at index 0 of the trimmed line or right after whitespace, scanning
    the whole trimmed line; e.g. ['++double'] gives ['+double'],
    ['Task+inline'] no project, ['email@example.com'] no context. *)
Theorem projects_contexts_scan (line : jsstr) :
  projects (parseTodoLine line) = sigil_runs 43 true (trim line)
  /\ contexts (parseTodoLine line) = sigil_runs 64 true (trim line)
  /\ projects (parseTodoLine (s2u "++double")) = [s2u "+double"]
  /\ projects (parseTodoLine (s2u "Task+inline")) = []
  /\ contexts (parseTodoLine (s2u "email@example.com")) = []
  /\ projects (parseTodoLine (s2u "x +a b +a")) = [s2u "a"; s2u "a"].
Proof.
  destruct (projects_contexts_runs line) as [H1 H2].
  split; [exact H1|]. split; [exact H2|].
  vm_compute. repeat split.
Qed.

(** The key filter of [last_value] gives the same values on two pair lists
    built from the same tokens when it agrees on each token's pair. *)
Lemma last_value_omap_ext (k : jsstr) (f g : jsstr -> option (jsstr * jsstr)) (l : list jsstr) :
  (forall x, match f x with Some (k', v) => if decide (k' = k) then Some v else None | None => None end
           = match g x with Some (k', v) => if decide (k' = k) then Some v else None | None => None end) ->
  last_value k (omap f l) = last_value k (omap g l).
Proof.
  intros H. unfold last_value. f_equal.
  induction l as [|x l IH]; [reflexivity|]. specialize (H x). cbn [omap list_omap].
  destruct (f x) as [[k1 v1]|], (g x) as [[k2 v2]|]; cbn [omap list_omap] in *; rewrite ?IH;
    [destruct (decide (k1 = k)), (decide (k2 = k)); congruence
    |destruct (decide (k1 = k)); congruence
    |destruct (decide (k2 = k)); congruence
    |reflexivity].
Qed.

(** On a key that does not begin with a colon, the code's tag of a token and
    the first-colon tag give the same value. *)
Lemma token_tag_first_colon (k t : jsstr) :
  hd_error k <> Some 58 ->
  match token_tag t with Some (k', v) => if decide (k' = k) then Some v else None | None => None end
  = match first_colon_tag t with Some (k', v) => if decide (k' = k) then Some v else None | None => None end.
Proof.
  intros Hk. destruct t as [|c t]; [reflexivity|].
  unfold token_tag, first_colon_tag. cbn [break_colon].
  destruct (Z.eqb_spec c 58) as [->|Hc].
  - destruct (break_colon t) as [[a [|b0 b]]|]; [reflexivity| |reflexivity].
    destruct (decide (58 :: a = k)) as [<-|]; [simpl in Hk; congruence|reflexivity].
  - destruct (break_colon t) as [[a [|b0 b]]|]; reflexivity.
Qed.

Lemma tag_pairs_first_colon (s k : jsstr) :
  hd_error k <> Some 58 -> last_value k (tag_pairs s) = last_value k (first_colon_pairs s).
Proof.
  intros Hk. apply last_value_omap_ext. intros x.
  destruct (starts_with [43] x || starts_with [64] x); [reflexivity|].
  apply token_tag_first_colon, Hk.
Qed.

(** C7 (as amended): for every key other than ["__proto__"] that does not
    begin with a colon, the tags of a line map the key to the value of the
    rightmost token of the trimmed line that does not begin with ['+'] or
    ['@'] and whose tag has that key, where a token's tag takes as key the
    text before its first colon and as value the text after it, both
    non-empty. *)
Theorem tags_by_token (line k : jsstr) :
  k <> s2u "__proto__" -> hd_error k <> Some 58 ->
  tags (parseTodoLine line) !! k = last_value k (first_colon_pairs (trim line)).
Proof.
  intros Hk Hc. rewrite <- (tag_pairs_first_colon _ _ Hc). unfold parseTodoLine.
  destruct (completion_stage (trim line)) as [c r].
  destruct (priority_stage r) as [p r'].
  destruct (date_stage c r') as [[cd cr] r''].
  cbn [tags]. rewrite collect_tags_pairs, lookup_fold_set_prop by exact Hk.
  destruct (last_value k (tag_pairs (trim line))); reflexivity.
Qed.

Lemma tags_by_token_witness :
  (s2u "due" <> s2u "__proto__" /\ hd_error (s2u "due") <> Some 58)
  /\ tags (parseTodoLine (s2u "Task due:1 +p:x due:2:3 key: :b")) !! s2u "due"
     = last_value (s2u "due") (first_colon_pairs (trim (s2u "Task due:1 +p:x due:2:3 key: :b"))).
Proof.
  assert (H1 : s2u "due" <> s2u "__proto__") by (vm_compute; intros H; discriminate H).
  assert (H2 : hd_error (s2u "due") <> Some 58) by (vm_compute; intros H; discriminate H).
  split; [split; assumption|exact (tags_by_token _ _ H1 H2)].
Defined.

(** C7, as stated, fails: a token ['__proto__:x'] yields no tag, since
    assigning a string to that key of a plain object is ignored. *)
Lemma tags_proto_counterexample :
  tags (parseTodoLine (s2u "Task __proto__:x")) = ∅
  /\ first_colon_pairs (trim (s2u "Task __proto__:x")) = [(s2u "__proto__", s2u "x")].
Proof. vm_compute. split; reflexivity. Qed.

Lemma trim_start_spec (s : jsstr) :
  exists w, s = w ++ trim_start s /\ Forall (fun x => is_ws x = true) w
            /\ no_lead_ws (trim_start s).
Proof.
  induction s as [|c t IH]; simpl.
  - exists []. repeat split; constructor.
  - destruct (is_ws c) eqn:Ec.
    + destruct IH as (w & Hw & Hf & Hn). exists (c :: w).
      cbn [app]. rewrite <- Hw. repeat split; [constructor; assumption|exact Hn].
    + exists []. repeat split; [constructor|exact Ec].
Qed.

Lemma trim_start_id (s : jsstr) : no_lead_ws s -> trim_start s = s.
Proof. destruct s as [|c t]; simpl; intros H; [reflexivity|rewrite H; reflexivity]. Qed.

Lemma trim_start_ws_app (w s : jsstr) :
  Forall (fun x => is_ws x = true) w -> trim_start (w ++ s) = trim_start s.
Proof. induction 1 as [|c w Hc Hw IH]; simpl; [reflexivity|rewrite Hc; exact IH]. Qed.

Lemma no_lead_ws_app_l (a b : jsstr) : no_lead_ws (a ++ b) -> no_lead_ws a.
Proof. destruct a; simpl; auto. Qed.

Lemma no_lead_ws_app_r (a b : jsstr) : b <> [] -> no_lead_ws (b ++ a) -> no_lead_ws b.
Proof. destruct b; simpl; auto. Qed.

Lemma trimmed_trim (s : jsstr) : trimmed (trim s).
Proof.
  unfold trimmed, trim. rewrite rev_involutive.
  destruct (trim_start_spec s) as (w1 & _ & _ & Hn1).
  destruct (trim_start_spec (rev (trim_start s))) as (w2 & E2 & _ & Hn2).
  split; [|exact Hn2].
  set (u := trim_start s) in *. set (v := trim_start (rev u)) in *.
  assert (Hu : u = rev v ++ rev w2).
  { rewrite <- rev_app_distr, <- E2, rev_involutive. reflexivity. }
  rewrite Hu in Hn1. apply no_lead_ws_app_l in Hn1. exact Hn1.
Qed.

Lemma trim_id (s : jsstr) : trimmed s -> trim s = s.
Proof.
  intros [H1 H2]. unfold trim. rewrite (trim_start_id s H1), (trim_start_id _ H2).
  apply rev_involutive.
Qed.

Lemma rev_cons_ne (x : Z) (l : jsstr) : rev (x :: l) <> [].
Proof.
  intros E. apply (f_equal (@length Z)) in E. rewrite length_rev in E. discriminate E.
Qed.

Lemma trim_of_ws_app (W R : jsstr) (X : jsstr) :
  Forall (fun x => is_ws x = true) W -> no_lead_ws R -> no_lead_ws (rev (X ++ R)) ->
  trim (W ++ R) = R.
Proof.
  intros HW HR HX. unfold trim.
  rewrite (trim_start_ws_app W R HW), (trim_start_id R HR).
  rewrite trim_start_id; [apply rev_involutive|].
  destruct R as [|x R']; [exact I|].
  rewrite rev_app_distr in HX.
  exact (no_lead_ws_app_r (rev X) (rev (x :: R')) (rev_cons_ne x R') HX).
Qed.

Lemma completion_of_shape (T W R : jsstr) :
  trimmed T -> T = [120; 32] ++ W ++ R -> Forall (fun x => is_ws x = true) W ->
  no_lead_ws R -> completion_stage T = (true, R).
Proof.
  intros [_ HT] ET HW HR. unfold completion_stage.
  change (s2u "x ") with [120; 32]. rewrite ET.
  change (starts_with [120; 32] ([120; 32] ++ W ++ R)) with true. cbv iota.
  f_equal. cbn [app drop].
  apply (trim_of_ws_app W R ([120; 32] ++ W)); [exact HW|exact HR|].
  rewrite <- app_assoc. rewrite <- ET. exact HT.
Qed.

Lemma completion_stage_spec (T : jsstr) : trimmed T ->
  (starts_with [120; 32] T = false /\ completion_stage T = (false, T))
  \/ (exists W R, T = [120; 32] ++ W ++ R /\ Forall (fun x => is_ws x = true) W
                  /\ no_lead_ws R /\ completion_stage T = (true, R)).
Proof.
  intros HT. destruct (starts_with [120; 32] T) eqn:Es.
  - right. destruct T as [|a [|b U]]; cbn [starts_with] in Es;
      [discriminate Es|rewrite andb_false_r in Es; discriminate Es|].
    apply andb_prop in Es as [Ea Eb]. rewrite andb_true_r in Eb.
    apply Z.eqb_eq in Ea, Eb. subst a b.
    destruct (trim_start_spec U) as (W & EU & HW & HR).
    exists W, (trim_start U).
    assert (ET : 120 :: 32 :: U = [120; 32] ++ W ++ trim_start U) by (rewrite <- EU; reflexivity).
    repeat split; try assumption.
    apply (completion_of_shape _ W); assumption.
  - left. split; [reflexivity|]. unfold completion_stage.
    change (s2u "x ") with [120; 32]. rewrite Es. reflexivity.
Qed.

Lemma priority_stage_spec (R : jsstr) :
  (priority_regex R = None /\ priority_stage R = (None, R))
  \/ (exists ch w R', R = [40; ch; 41; w] ++ R' /\ is_upper ch = true
                     /\ is_ws w = true /\ priority_stage R = (Some [ch], R')).
Proof.
  unfold priority_stage.
  destruct (priority_regex R) as [pm|] eqn:E; [right|left; auto].
  destruct R as [|lp [|ch [|rp [|w R']]]]; try discriminate E.
  unfold priority_regex in E.
  destruct ((lp =? 40) && is_upper ch && (rp =? 41) && is_ws w) eqn:C; [|discriminate E].
  injection E as <-. apply andb_prop in C as [C Hw]. apply andb_prop in C as [C Hr].
  apply andb_prop in C as [Hl Hc]. apply Z.eqb_eq in Hl, Hr. subst lp rp.
  exists ch, w, R'. repeat split; assumption.
Qed.

Lemma priority_of_shape (p : option jsstr) (P Rd : jsstr) :
  prio_shape p P Rd -> priority_stage (P ++ Rd) = (p, Rd).
Proof.
  intros [(-> & -> & HR)|(ch & w & -> & -> & Hc & Hw)]; unfold priority_stage.
  - cbn [app]. rewrite HR. reflexivity.
  - cbn [app priority_regex]. rewrite Hc, Hw. reflexivity.
Qed.

Lemma priority_regex_head (x : Z) (t : jsstr) : x <> 40 -> priority_regex (x :: t) = None.
Proof.
  intros Hx. destruct t as [|a [|b [|c t]]]; try reflexivity.
  unfold priority_regex. replace (x =? 40) with false by (symmetry; apply Z.eqb_neq; exact Hx).
  reflexivity.
Qed.

Lemma date_tok_cases (d : jsstr) : date_tok d = true ->
  exists y1 y2 y3 y4 h1 m1 m2 h2 d1 d2,
    d = [y1; y2; y3; y4; h1; m1; m2; h2; d1; d2]
    /\ is_digit y1 && is_digit y2 && is_digit y3 && is_digit y4
       && (h1 =? 45) && is_digit m1 && is_digit m2 && (h2 =? 45)
       && is_digit d1 && is_digit d2 = true.
Proof.
  intros H. do 10 (destruct d as [|? d]; [discriminate H|]).
  destruct d; [|discriminate H].
  do 10 eexists. split; [reflexivity|exact H].
Qed.

Lemma date_regex_app (d : jsstr) (w : Z) (s : jsstr) :
  date_tok d = true -> is_ws w = true ->
  date_regex (d ++ w :: s) = Some {| m0 := d ++ [w]; groups := [d] |}.
Proof.
  intros Hd Hw. destruct (date_tok_cases d Hd) as (y1 & y2 & y3 & y4 & h1 & m1 & m2 & h2 & d1 & d2 & -> & H).
  cbn [app date_regex]. rewrite H, Hw. reflexivity.
Qed.

Lemma date_regex_spec (s : jsstr) :
  date_regex s = None
  \/ exists d w s', s = d ++ w :: s' /\ date_tok d = true /\ is_ws w = true.
Proof.
  destruct (date_regex s) as [m|] eqn:E; [right|left; reflexivity].
  do 11 (destruct s as [|? s]; [discriminate E|]).
  unfold date_regex in E.
  match type of E with (if ?b then _ else _) = _ => destruct b eqn:C end; [|discriminate E].
  apply andb_prop in C as [C Hw].
  eexists [_; _; _; _; _; _; _; _; _; _], _, s. split; [reflexivity|]. split; [exact C|exact Hw].
Qed.

Lemma date_regex_none (s : jsstr) :
  date_regex s = None <-> forall d rest, ~ starts_with_date s d rest.
Proof.
  split.
  - intros H d rest (w & -> & Hd & Hw). rewrite (date_regex_app d w rest Hd Hw) in H. discriminate H.
  - intros H. destruct (date_regex_spec s) as [E|(d & w & s' & -> & Hd & Hw)]; [exact E|].
    exfalso. apply (H d s'). exists w. auto.
Qed.

Lemma date_step (d : jsstr) (w : Z) (s : jsstr) :
  date_tok d = true -> is_ws w = true ->
  exists fm, date_regex (d ++ w :: s) = Some fm /\ group fm 1 = Some d
             /\ drop (length (m0 fm)) (d ++ w :: s) = s.
Proof.
  intros Hd Hw. eexists. split; [apply (date_regex_app d w s Hd Hw)|].
  split; [reflexivity|]. cbn [m0].
  replace (d ++ w :: s) with ((d ++ [w]) ++ s) by (rewrite <- app_assoc; reflexivity).
  apply drop_app_length.
Qed.

Lemma date_stage_of_shape (c : bool) (ds : list jsstr) (D desc : jsstr) :
  dates_shape ds D desc -> date_stage c (D ++ desc) = (assign_dates c ds, desc).
Proof.
  intros (Hds & HD & Hlen & Hnone). unfold date_stage.
  destruct ds as [|d1 [|d2 [|d3 ds]]]; cbn [length] in Hlen, Hnone; try lia.
  - cbn [toks_ws] in HD. subst D. cbn [app]. rewrite Hnone by lia. reflexivity.
  - cbn [toks_ws] in HD. destruct HD as (w1 & u & Hw1 & -> & ->). inversion Hds as [|? ? Hd1 _]. subst.
    rewrite <- app_assoc. cbn [app].
    destruct (date_step d1 w1 desc Hd1 Hw1) as (fm & E1 & Hg & Hdr).
    rewrite E1. cbv beta iota zeta. rewrite Hdr, Hnone by lia. destruct c; rewrite Hg; reflexivity.
  - cbn [toks_ws] in HD. destruct HD as (w1 & u & Hw1 & -> & w2 & u' & Hw2 & -> & ->).
    inversion Hds as [|? ? Hd1 Hds']. inversion Hds' as [|? ? Hd2 _]. subst.
    repeat (rewrite <- app_assoc; cbn [app]).
    destruct (date_step d1 w1 (d2 ++ w2 :: desc) Hd1 Hw1) as (fm & E1 & Hg & Hdr).
    rewrite E1. cbv beta iota zeta. rewrite Hdr.
    destruct (date_step d2 w2 desc Hd2 Hw2) as (sm & E2 & Hg' & Hdr').
    rewrite E2, Hdr'.
    rewrite Hg, Hg'. reflexivity.
Qed.

Lemma date_stage_shape (c : bool) (Rd : jsstr) :
  exists ds D desc, Rd = D ++ desc /\ dates_shape ds D desc
                    /\ date_stage c Rd = (assign_dates c ds, desc).
Proof.
  assert (H : exists ds D desc, Rd = D ++ desc /\ dates_shape ds D desc).
  { destruct (date_regex_spec Rd) as [E|(d1 & w1 & R1 & -> & Hd1 & Hw1)].
    - exists [], [], Rd. split; [reflexivity|].
      repeat split; [constructor|cbn; lia|intros; exact E].
    - destruct (date_regex_spec R1) as [E|(d2 & w2 & R2 & -> & Hd2 & Hw2)].
      + exists [d1], (d1 ++ [w1]), R1. split; [rewrite <- app_assoc; reflexivity|].
        repeat split; [repeat constructor; assumption| |cbn; lia|intros; exact E].
        exists w1, []. repeat split; assumption || reflexivity.
      + exists [d1; d2], (d1 ++ w1 :: d2 ++ [w2]), R2.
        split; [rewrite <- app_assoc; cbn [app]; rewrite <- app_assoc; reflexivity|].
        repeat split; [repeat constructor; assumption| |cbn; lia|cbn; lia].
        exists w1, (d2 ++ [w2]). split; [exact Hw1|]. split; [reflexivity|].
        exists w2, []. repeat split; assumption || reflexivity. }
  destruct H as (ds & D & desc & -> & Hs). exists ds, D, desc.
  split; [reflexivity|]. split; [exact Hs|]. apply date_stage_of_shape. exact Hs.
Qed.

Lemma completion_of_head_shape (T : jsstr) (c : bool) (p : option jsstr) (W P Rd : jsstr) :
  trimmed T -> head_shape T c p W P Rd -> completion_stage T = (c, P ++ Rd).
Proof.
  intros HT (E & HW & Hc & _). destruct c.
  - apply (completion_of_shape T W); assumption.
  - unfold completion_stage. change (s2u "x ") with [120; 32]. rewrite Hc.
    cbn [app] in E. rewrite <- E. reflexivity.
Qed.

Lemma parse_of_head_shape (line : jsstr) (c : bool) (p : option jsstr) (W P Rd : jsstr) :
  head_shape (trim line) c p W P Rd ->
  completed (parseTodoLine line) = c /\ priority (parseTodoLine line) = p
  /\ date_stage c Rd = (completionDate (parseTodoLine line), creationDate (parseTodoLine line),
                        description (parseTodoLine line)).
Proof.
  intros H. unfold parseTodoLine.
  rewrite (completion_of_head_shape (trim line) c p W P Rd (trimmed_trim line) H).
  destruct H as (_ & _ & _ & Hp). rewrite (priority_of_shape p P Rd Hp).
  destruct (date_stage c Rd) as [[cd cr] desc]. cbn. auto.
Qed.

Lemma parse_head_shape (line : jsstr) :
  exists W P Rd,
    head_shape (trim line) (completed (parseTodoLine line)) (priority (parseTodoLine line)) W P Rd
    /\ date_stage (completed (parseTodoLine line)) Rd
       = (completionDate (parseTodoLine line), creationDate (parseTodoLine line),
          description (parseTodoLine line)).
Proof.
  assert (H : exists c p W P Rd, head_shape (trim line) c p W P Rd).
  { destruct (completion_stage_spec (trim line) (trimmed_trim line))
      as [(Hs & Ec)|(W & R & ET & HW & HR & Ec)].
    - destruct (priority_stage_spec (trim line))
        as [(Hn & _)|(ch & w & R' & ER & Hch & Hw & _)].
      + exists false, None, [], [], (trim line).
        split; [reflexivity|]. split; [constructor|]. split; [exact Hs|]. left. auto.
      + exists false, (Some [ch]), [], [40; ch; 41; w], R'.
        split; [exact ER|]. split; [constructor|]. split; [exact Hs|].
        right. exists ch, w. auto.
    - destruct (priority_stage_spec R)
        as [(Hn & _)|(ch & w & R' & ER & Hch & Hw & _)].
      + exists true, None, W, [], R.
        split; [rewrite ET; reflexivity|]. split; [exact HW|]. split; [exact HR|]. left. auto.
      + exists true, (Some [ch]), W, [40; ch; 41; w], R'. subst R.
        split; [rewrite ET; reflexivity|]. split; [exact HW|]. split; [exact HR|].
        right. exists ch, w. auto. }
  destruct H as (c & p & W & P & Rd & H).
  destruct (parse_of_head_shape line c p W P Rd H) as (-> & -> & E).
  exists W, P, Rd. auto.
Qed.

Lemma parse_shape (line : jsstr) :
  exists W P ds D,
    head_shape (trim line) (completed (parseTodoLine line)) (priority (parseTodoLine line))
               W P (D ++ description (parseTodoLine line))
    /\ dates_shape ds D (description (parseTodoLine line))
    /\ (completionDate (parseTodoLine line), creationDate (parseTodoLine line))
       = assign_dates (completed (parseTodoLine line)) ds.
Proof.
  destruct (parse_head_shape line) as (W & P & Rd & Hh & Ed).
  destruct (date_stage_shape (completed (parseTodoLine line)) Rd)
    as (ds & D & desc & -> & Hds & Ed').
  rewrite Ed in Ed'. injection Ed' as Ea Edesc.
  exists W, P, ds, D. rewrite Edesc. split; [exact Hh|]. split; [exact Hds|]. exact Ea.
Qed.

Lemma assign_dates_list (c : bool) (ds : list jsstr) : (length ds <= 2)%nat ->
  opt_list (fst (assign_dates c ds)) ++ opt_list (snd (assign_dates c ds)) = ds.
Proof.
  intros H. destruct ds as [|d1 [|d2 [|d3 ds]]]; cbn in H |- *; try lia; try reflexivity.
  destruct c; reflexivity.
Qed.

Lemma prio_shape_toks (p : option jsstr) (P Rd : jsstr) :
  prio_shape p P Rd -> toks_ws (map prio_tok (opt_list p)) P.
Proof.
  intros [(-> & -> & _)|(ch & w & -> & -> & _ & Hw)]; cbn; [reflexivity|].
  exists w, []. auto.
Qed.

(** ** Claims on the line grammar *)

(** C5 (as amended): the trimmed line is, in order, the completion mark
    ['x '] followed by whitespace [W] (completed lines only), the priority
    token [(P)] and one whitespace code unit, each recognised date and one
    whitespace code unit, and then the description verbatim; on a completed
    line all whitespace after ['x '] is consumed, so the description does not
    keep it. *)
Theorem description_after_prefixes (line : jsstr) :
  let r := parseTodoLine line in
  exists W P D,
    trim line = (if completed r then s2u "x " ++ W else []) ++ P ++ D ++ description r
    /\ Forall (fun x => is_ws x = true) W
    /\ (completed r = true -> no_lead_ws (P ++ D ++ description r))
    /\ toks_ws (map prio_tok (opt_list (priority r))) P
    /\ toks_ws (opt_list (completionDate r) ++ opt_list (creationDate r)) D.
Proof.
  cbv zeta. destruct (parse_shape line) as (W & P & ds & D & (E & HW & Hc & Hp) & Hds & Ea).
  exists W, P, D. split; [exact E|]. split; [exact HW|].
  split; [intros Ec; rewrite Ec in Hc; exact Hc|].
  split; [exact (prio_shape_toks _ _ _ Hp)|].
  assert (E1 : completionDate (parseTodoLine line)
               = fst (assign_dates (completed (parseTodoLine line)) ds)) by (rewrite <- Ea; reflexivity).
  assert (E2 : creationDate (parseTodoLine line)
               = snd (assign_dates (completed (parseTodoLine line)) ds)) by (rewrite <- Ea; reflexivity).
  rewrite E1, E2. destruct Hds as (_ & HD & Hlen & _).
  rewrite (assign_dates_list _ ds Hlen). exact HD.
Qed.

(** C4 (as amended): with [R0] the text after the optional completion
    prefix, the priority is [c] exactly when [R0] starts with ['('], an
    uppercase ASCII letter [c], [')'] and one whitespace code unit (any [\s],
    not only a space), and the dates and description are then read from the
    text after these four code units; otherwise the priority stays unset and
    they are read from [R0] unchanged. *)
Theorem priority_prefix (line : jsstr) :
  let R0 := snd (completion_stage (trim line)) in
  let r := parseTodoLine line in
  (forall ch w R', R0 = 40 :: ch :: 41 :: w :: R' -> is_upper ch = true -> is_ws w = true ->
     priority r = Some [ch]
     /\ (completionDate r, creationDate r, description r) = date_stage (completed r) R')
  /\ ((~ exists ch w R', R0 = 40 :: ch :: 41 :: w :: R' /\ is_upper ch = true /\ is_ws w = true) ->
     priority r = None
     /\ (completionDate r, creationDate r, description r) = date_stage (completed r) R0).
Proof.
  cbv zeta. unfold parseTodoLine. cbv zeta.
  destruct (completion_stage (trim line)) as [c R0]. cbn [snd]. split.
  - intros ch w R' -> Hch Hw.
    assert (Hp : prio_shape (Some [ch]) [40; ch; 41; w] R') by (right; exists ch, w; auto).
    change (40 :: ch :: 41 :: w :: R') with ([40; ch; 41; w] ++ R').
    rewrite (priority_of_shape _ _ _ Hp).
    destruct (date_stage c R') as [[cd cr] d] eqn:E. cbn. auto.
  - intros Hn. destruct (priority_stage_spec R0)
      as [(_ & ->)|(ch & w & R' & ER & Hch & Hw & _)].
    + destruct (date_stage c R0) as [[cd cr] d] eqn:E. cbn. auto.
    + exfalso. apply Hn. exists ch, w, R'. auto.
Qed.

(** C3 (as amended): with [R] the text after the completion and priority
    prefixes, a date is 4 digits, ['-'], 2 digits, ['-'], 2 digits (no
    calendar check) followed by one whitespace code unit (any [\s]), matched
    at the start of [R] only; two consecutive dates are completionDate and
    creationDate whatever the completed flag; a single date is the
    completionDate of a completed line and the creationDate otherwise; with
    none both stay unset. *)
Theorem date_prefix (line : jsstr) :
  let R := snd (priority_stage (snd (completion_stage (trim line)))) in
  let r := parseTodoLine line in
  (forall d1 R1 d2 R2, starts_with_date R d1 R1 -> starts_with_date R1 d2 R2 ->
     completionDate r = Some d1 /\ creationDate r = Some d2 /\ description r = R2)
  /\ (forall d1 R1, starts_with_date R d1 R1 -> (forall d2 R2, ~ starts_with_date R1 d2 R2) ->
     (if completed r then completionDate r = Some d1 /\ creationDate r = None
      else completionDate r = None /\ creationDate r = Some d1)
     /\ description r = R1)
  /\ ((forall d1 R1, ~ starts_with_date R d1 R1) ->
     completionDate r = None /\ creationDate r = None /\ description r = R).
Proof.
  cbv zeta. unfold parseTodoLine. cbv zeta.
  destruct (completion_stage (trim line)) as [c R0]. cbn [snd].
  destruct (priority_stage R0) as [p R]. cbn [snd]. unfold date_stage.
  split; [|split].
  - intros d1 R1 d2 R2 (w1 & -> & Hd1 & Hw1) (w2 & -> & Hd2 & Hw2).
    destruct (date_step d1 w1 (d2 ++ w2 :: R2) Hd1 Hw1) as (fm & E1 & G1 & D1).
    rewrite E1. cbv beta iota zeta. rewrite D1.
    destruct (date_step d2 w2 R2 Hd2 Hw2) as (sm & E2 & G2 & D2).
    rewrite E2, D2, G1, G2. cbn. auto.
  - intros d1 R1 (w1 & -> & Hd1 & Hw1) Hn.
    destruct (date_step d1 w1 R1 Hd1 Hw1) as (fm & E1 & G1 & D1).
    rewrite E1. cbv beta iota zeta. rewrite D1.
    rewrite (proj2 (date_regex_none R1) Hn), G1. destruct c; cbn; auto.
  - intros Hn. rewrite (proj2 (date_regex_none R) Hn). cbn. auto.
Qed.

Lemma serializeTodo_eq (r : Todo) :
  serializeTodo r = (if completed r then [120; 32] else []) ++ ser_prio (priority r)
                    ++ ser_dates (completed r) (completionDate r) (creationDate r)
                    ++ description r.
Proof.
  destruct r as [c p cd cr desc pr cx tg rw]. unfold serializeTodo, ser_prio, ser_dates.
  cbn [completed priority completionDate creationDate description].
  destruct c, p as [[|]|], cd as [[|]|], cr as [[|]|]; cbn [truthy andb default];
    rewrite <- ?app_assoc; reflexivity.
Qed.

Lemma ws_digit_range (c : Z) : 40 <= c <= 57 -> is_ws c = false.
Proof.
  intros H. destruct (is_ws c) eqn:E; [|reflexivity]. exfalso. unfold is_ws in E.
  repeat rewrite orb_true_iff in E. rewrite ?andb_true_iff, ?Z.eqb_eq, ?Z.leb_le in E. lia.
Qed.

Lemma date_tok_chars (d : jsstr) : date_tok d = true ->
  Forall (fun c => 45 <= c <= 57) d /\ exists y t, d = y :: t /\ 48 <= y <= 57.
Proof.
  intros Hd. destruct (date_tok_cases d Hd) as (y1 & y2 & y3 & y4 & h1 & m1 & m2 & h2 & d1 & d2 & -> & H).
  repeat match goal with Hb : _ && _ = true |- _ => apply andb_prop in Hb as [? ?] end.
  unfold is_digit in *.
  repeat match goal with Hb : _ && _ = true |- _ => apply andb_prop in Hb as [? ?] end.
  rewrite ?Z.leb_le, ?Z.eqb_eq in *.
  split; [repeat constructor; lia|]. eexists _, _. split; [reflexivity|lia].
Qed.

Lemma ews_app (a b : jsstr) : ews a -> ews b -> ews (a ++ b).
Proof.
  intros Ha [->|(b' & w & -> & Hw)].
  - rewrite app_nil_r. exact Ha.
  - right. exists (a ++ b'), w. rewrite app_assoc. auto.
Qed.

Lemma ews_ws (W : jsstr) : Forall (fun x => is_ws x = true) W -> ews W.
Proof.
  induction 1 as [|x W Hx HW IH]; [left; reflexivity|].
  destruct IH as [->|(W' & w & -> & Hw)].
  - right. exists [], x. auto.
  - right. exists (x :: W'), w. auto.
Qed.

Lemma ews_toks (ts : list jsstr) (U : jsstr) : toks_ws ts U -> ews U.
Proof.
  revert U. induction ts as [|t ts IH]; intros U H; cbn in H.
  - left. exact H.
  - destruct H as (w & u' & Hw & -> & Hu). destruct (IH u' Hu) as [->|(u'' & w' & -> & Hw')].
    + right. exists t, w. auto.
    + right. exists (t ++ w :: u''), w'. rewrite <- app_assoc. auto.
Qed.

Lemma ews_trimmed (u : jsstr) : ews u -> no_lead_ws (rev u) -> u = [].
Proof.
  intros [->|(u' & w & -> & Hw)] H; [reflexivity|].
  rewrite rev_app_distr in H. cbn in H. rewrite Hw in H. discriminate H.
Qed.

Lemma toks_head (ds : list jsstr) (U Y : jsstr) :
  Forall (fun d => date_tok d = true) ds -> toks_ws ds U -> ds <> [] ->
  exists y t, U ++ Y = y :: t /\ 48 <= y <= 57.
Proof.
  intros Hds HU Hne. destruct ds as [|d ds]; [contradiction|].
  inversion Hds as [|? ? Hd _]. subst.
  destruct HU as (w & u' & _ & -> & _).
  destruct (date_tok_chars d Hd) as (_ & y & t & -> & Hy).
  eexists _, _. split; [reflexivity|exact Hy].
Qed.

Lemma ser_dates_toks (c : bool) (ds : list jsstr) :
  Forall (fun d => date_tok d = true) ds -> (length ds <= 2)%nat ->
  toks_ws (emitted_dates c ds)
          (ser_dates c (fst (assign_dates c ds)) (snd (assign_dates c ds))).
Proof.
  intros Hds Hlen.
  assert (Hne : forall d, date_tok d = true -> exists y t, d = y :: t).
  { intros d Hd. destruct (date_tok_chars d Hd) as (_ & y & t & -> & _). eauto. }
  destruct ds as [|d1 [|d2 [|d3 ds]]]; cbn in Hlen; try lia.
  - destruct c; reflexivity.
  - inversion Hds as [|? ? Hd1 _]. subst. destruct (Hne d1 Hd1) as (y & t & ->).
    destruct c; cbn; exists 32, []; rewrite ?app_nil_r; auto.
  - inversion Hds as [|? ? Hd1 Hds']. inversion Hds' as [|? ? Hd2 _]. subst.
    destruct (Hne d1 Hd1) as (y & t & ->). destruct (Hne d2 Hd2) as (y' & t' & ->).
    destruct c; cbn.
    + exists 32, (y' :: t' ++ [32]). split; [reflexivity|]. rewrite <- app_assoc. split; [reflexivity|].
      exists 32, []. rewrite ?app_nil_r; auto.
    + exists 32, []. rewrite ?app_nil_r; auto.
Qed.

Section Annotation.
Variable A : Type.
Variable F : jsstr -> list A.
Hypothesis F_nil : F [] = [].
Hypothesis F_split : forall a w b, is_ws w = true -> F (a ++ w :: b) = F a ++ F b.
Hypothesis F_date : forall d, date_tok d = true -> F d = [].

Lemma F_ws_prefix (W Y : jsstr) :
    Forall (fun x => is_ws x = true) W -> F (W ++ Y) = F Y.
  Proof.
    induction 1 as [|w W Hw HW IH]; [reflexivity|].
    change ((w :: W) ++ Y) with ([] ++ w :: (W ++ Y)).
    rewrite (F_split [] w (W ++ Y) Hw), F_nil. exact IH.
  Qed.

Lemma F_toks (ts : list jsstr) (U Y : jsstr) :
    toks_ws ts U -> F (U ++ Y) = flat_map F ts ++ F Y.
  Proof.
    revert U. induction ts as [|t ts IH]; intros U H; cbn in H.
    - subst U. reflexivity.
    - destruct H as (w & u' & Hw & -> & Hu).
      rewrite <- app_assoc. cbn [app]. rewrite (F_split t w (u' ++ Y) Hw), (IH u' Hu).
      cbn [flat_map]. rewrite app_assoc. reflexivity.
  Qed.

Lemma F_dates (ds : list jsstr) :
    Forall (fun d => date_tok d = true) ds -> flat_map F ds = [].
  Proof.
    induction 1 as [|d ds Hd _ IH]; [reflexivity|]. cbn [flat_map]. rewrite F_date, IH by exact Hd.
    reflexivity.
  Qed.

Lemma F_line (c : bool) (W P D desc : jsstr) (ps ds : list jsstr) :
    Forall (fun x => is_ws x = true) W -> toks_ws ps P -> toks_ws ds D ->
    Forall (fun d => date_tok d = true) ds ->
    F ((if c then [120; 32] ++ W else []) ++ P ++ D ++ desc)
    = (if c then F [120] else []) ++ flat_map F ps ++ F desc.
  Proof.
    intros HW HP HD Hds.
    assert (Hrest : F (P ++ D ++ desc) = flat_map F ps ++ F desc).
    { rewrite (F_toks ps P (D ++ desc) HP), (F_toks ds D desc HD), (F_dates ds Hds). reflexivity. }
    destruct c; [|exact Hrest].
    change (([120; 32] ++ W) ++ P ++ D ++ desc) with ([120] ++ 32 :: (W ++ P ++ D ++ desc)).
    rewrite (F_split [120] 32 _ eq_refl), (F_ws_prefix W _ HW), Hrest. reflexivity.
  Qed.
End Annotation.

Lemma sigil_runs_split (sigil : Z) (b0 : bool) (a : jsstr) (w : Z) (b : jsstr) :
  is_ws sigil = false -> is_ws w = true ->
  sigil_runs sigil b0 (a ++ w :: b) = sigil_runs sigil b0 a ++ sigil_runs sigil true b.
Proof.
  intros Hs Hw. revert b0. induction a as [|c a IH]; intros b0; cbn [app sigil_runs].
  - assert (E : (w =? sigil) = false).
    { apply Z.eqb_neq. intros ->. congruence. }
    rewrite E, andb_false_r, Hw. reflexivity.
  - rewrite IH, (fst_span_nonws_ws a b w Hw).
    destruct (b0 && (c =? sigil)); [|reflexivity].
    destruct (fst (span_nonws a)); reflexivity.
Qed.

Lemma sigil_runs_date (sigil : Z) (b : bool) (d : jsstr) :
  (sigil < 45 \/ 57 < sigil) -> date_tok d = true -> sigil_runs sigil b d = [].
Proof.
  intros Hs Hd. destruct (date_tok_chars d Hd) as (Hc & _). clear Hd. revert b.
  induction Hc as [|c d Hc _ IH]; intros b; [reflexivity|]. cbn [sigil_runs].
  replace (c =? sigil) with false by (symmetry; apply Z.eqb_neq; lia).
  rewrite andb_false_r. apply IH.
Qed.

Lemma break_colon_none (x : jsstr) : Forall (fun c => c <> 58) x -> break_colon x = None.
Proof.
  induction 1 as [|c x Hc _ IH]; [reflexivity|]. cbn [break_colon].
  replace (c =? 58) with false by (symmetry; apply Z.eqb_neq; exact Hc). rewrite IH. reflexivity.
Qed.

Lemma tag_pairs_split (a : jsstr) (w : Z) (b : jsstr) :
  is_ws w = true -> tag_pairs (a ++ w :: b) = tag_pairs a ++ tag_pairs b.
Proof. intros Hw. unfold tag_pairs. rewrite (words_split a b w Hw). apply omap_app. Qed.

Lemma tag_pairs_date (d : jsstr) : date_tok d = true -> tag_pairs d = [].
Proof.
  intros Hd. destruct (date_tok_chars d Hd) as (Hc & y & t & -> & Hy).
  assert (Hw : words (y :: t) = [y :: t]).
  { assert (Hnw : Forall (fun c => is_ws c = false) (y :: t)).
    { eapply Forall_impl; [exact Hc|]. intros x Hx. cbv beta in Hx. apply ws_digit_range. lia. }
    assert (Hne : y :: t <> []) by discriminate.
    assert (Hr : rest_ok []) by (cbn; trivial).
    pose proof (words_token (y :: t) [] Hne Hnw Hr) as E.
    rewrite app_nil_r in E. exact E. }
  unfold tag_pairs. rewrite Hw. cbn [omap list_omap starts_with].
  replace (43 =? y) with false by (symmetry; apply Z.eqb_neq; lia).
  replace (64 =? y) with false by (symmetry; apply Z.eqb_neq; lia). cbn [andb orb].
  unfold token_tag. rewrite break_colon_none; [reflexivity|].
  inversion Hc as [|? ? _ Ht]. eapply Forall_impl; [exact Ht|]. intros z Hz. cbv beta in Hz. lia.
Qed.

Lemma tags_collect (line : jsstr) : tags (parseTodoLine line) = collect_tags (trim line).
Proof.
  unfold parseTodoLine.
  destruct (completion_stage (trim line)) as [c r].
  destruct (priority_stage r) as [p r'].
  destruct (date_stage c r') as [[cd cr] r'']. reflexivity.
Qed.

Lemma emitted_dates_forall (c : bool) (ds : list jsstr) :
  Forall (fun d => date_tok d = true) ds -> Forall (fun d => date_tok d = true) (emitted_dates c ds).
Proof.
  intros H. destruct c; [exact H|]. destruct ds as [|d1 [|d2 [|d3 ds]]]; try exact H.
  inversion H as [|? ? _ H']. exact H'.
Qed.

Lemma emitted_dates_nil (c : bool) (ds : list jsstr) : emitted_dates c ds = [] -> ds = [].
Proof. destruct c, ds as [|d1 [|d2 [|d3 ds]]]; cbn; congruence. Qed.

Lemma emitted_dates_id (c : bool) (ds : list jsstr) :
  (c = true \/ (length ds < 2)%nat) -> emitted_dates c ds = ds.
Proof.
  intros H. destruct c; [reflexivity|].
  destruct ds as [|d1 [|d2 [|d3 ds]]]; cbn in H; try reflexivity.
  destruct H as [H|H]; [discriminate H|lia].
Qed.

Lemma toks_nonempty (t : jsstr) (ts : list jsstr) (U : jsstr) : toks_ws (t :: ts) U -> U <> [].
Proof.
  intros (w & u' & _ & -> & _) E. apply (f_equal (@length Z)) in E.
  rewrite length_app in E. cbn in E. lia.
Qed.

Lemma no_lead_ws_app_swap (a a' b : jsstr) :
  b <> [] -> no_lead_ws (b ++ a) -> no_lead_ws (b ++ a').
Proof. destruct b; [contradiction|]. cbn. auto. Qed.

Lemma reparse_generic (T : jsstr) (c : bool) (p : option jsstr) (ds : list jsstr)
    (W P D desc : jsstr) :
  trimmed T -> head_shape T c p W P (D ++ desc) -> dates_shape ds D desc ->
  let SD := ser_dates c (fst (assign_dates c ds)) (snd (assign_dates c ds)) in
  let s := (if c then [120; 32] else []) ++ ser_prio p ++ SD ++ desc in
  trimmed s
  /\ head_shape s c p [] (ser_prio p) (SD ++ desc)
  /\ toks_ws (emitted_dates c ds) SD
  /\ Forall (fun d => date_tok d = true) (emitted_dates c ds)
  /\ ((c = true \/ (length ds < 2)%nat) -> dates_shape ds SD desc).
Proof.
  intros [HT1 HT2] (E & HW & Hc & Hp) (Hds & HD & Hlen & Hn). cbv zeta.
  set (SD := ser_dates c (fst (assign_dates c ds)) (snd (assign_dates c ds))).
  assert (HSD : toks_ws (emitted_dates c ds) SD) by (apply ser_dates_toks; assumption).
  assert (Hem : Forall (fun d => date_tok d = true) (emitted_dates c ds))
    by (apply emitted_dates_forall; exact Hds).
  assert (Hhead : (ds = [] /\ D = [] /\ SD = [])
                  \/ (exists y t, SD ++ desc = y :: t /\ 48 <= y <= 57)).
  { destruct ds as [|d ds'].
    - left. cbn in HD. subst D. split; [reflexivity|]. split; [reflexivity|].
      subst SD. destruct c; reflexivity.
    - right. apply (toks_head (emitted_dates c (d :: ds')) SD desc Hem HSD).
      intros Hnil. apply emitted_dates_nil in Hnil. discriminate Hnil. }
  assert (Hnl : no_lead_ws (P ++ D ++ desc) -> no_lead_ws (ser_prio p ++ SD ++ desc)).
  { destruct Hp as [(-> & -> & _)|(ch & w & -> & -> & _ & _)]; [|intros _; reflexivity].
    cbn [ser_prio app]. destruct Hhead as [(_ & -> & ->)|(y & t & -> & Hy)]; [auto|].
    intros _. cbn. apply ws_digit_range. lia. }
  assert (Hps : prio_shape p (ser_prio p) (SD ++ desc)).
  { destruct Hp as [(-> & -> & Hr)|(ch & w & -> & -> & Hch & Hw)].
    - left. split; [reflexivity|]. split; [reflexivity|].
      destruct Hhead as [(_ & -> & ->)|(y & t & -> & Hy)]; [exact Hr|].
      apply priority_regex_head. lia.
    - right. exists ch, 32. auto. }
  assert (Hx : c = false -> starts_with [120; 32] (ser_prio p ++ SD ++ desc) = false).
  { intros ->. destruct Hp as [(-> & -> & _)|(ch & w & -> & -> & _ & _)]; [|reflexivity].
    destruct Hhead as [(_ & -> & ->)|(y & t & -> & Hy)].
    - cbn in E |- *. rewrite <- E. exact Hc.
    - cbn [ser_prio app starts_with]. replace (120 =? y) with false by (symmetry; apply Z.eqb_neq; lia). reflexivity. }
  assert (Hs : (if c then [120; 32] else []) ++ ser_prio p ++ SD ++ desc
               = (if c then [120; 32] ++ [] else []) ++ ser_prio p ++ SD ++ desc)
    by (destruct c; reflexivity).
  split; [split|split; [|split; [exact HSD|split; [exact Hem|]]]].
  - destruct c; [reflexivity|]. apply Hnl. cbn in E. rewrite <- E. exact HT1.
  - destruct (decide (desc = [])) as [->|Hne].
    + assert (HX : (if c then [120; 32] ++ W else []) ++ P ++ D = []).
      { apply ews_trimmed.
        - apply ews_app; [|apply ews_app].
          + destruct c; [|left; reflexivity]. apply ews_app; [|apply ews_ws; exact HW].
            right. exists [120], 32. auto.
          + exact (ews_toks _ _ (prio_shape_toks _ _ _ Hp)).
          + exact (ews_toks _ _ HD).
        - rewrite E in HT2. rewrite !app_nil_r in HT2. exact HT2. }
      apply app_eq_nil in HX as [Hc0 HX]. apply app_eq_nil in HX as [-> ->].
      destruct c; [discriminate Hc0|].
      destruct Hp as [(-> & _ & _)|(ch & w & _ & E' & _)]; [|discriminate E'].
      destruct ds as [|d ds']; [|exfalso; exact (toks_nonempty d ds' [] HD eq_refl)].
      reflexivity.
    + rewrite !app_assoc, rev_app_distr. rewrite E, !app_assoc, rev_app_distr in HT2.
      destruct desc as [|x desc']; [contradiction|].
      exact (no_lead_ws_app_swap _ _ _ (rev_cons_ne x desc') HT2).
  - rewrite Hs. split; [reflexivity|]. split; [constructor|]. split; [|exact Hps].
    destruct c; [apply Hnl; exact Hc|apply Hx; reflexivity].
  - intros Hcl. rewrite (emitted_dates_id c ds Hcl) in HSD. repeat split; assumption.
Qed.

(** ** The round trip *)

Lemma reparse_fields (line : jsstr) :
  let r := parseTodoLine line in
  let r' := parseTodoLine (serializeTodo r) in
  completed r' = completed r /\ priority r' = priority r
  /\ projects r' = projects r /\ contexts r' = contexts r /\ tags r' = tags r
  /\ ((completed r = true \/ completionDate r = None) ->
      completionDate r' = completionDate r /\ creationDate r' = creationDate r
      /\ description r' = description r).
Proof.
  cbv zeta.
  destruct (parse_shape line) as (W & P & ds & D & Hh & Hds & Ea).
  set (r := parseTodoLine line) in *.
  assert (E1 : completionDate r = fst (assign_dates (completed r) ds)) by (rewrite <- Ea; reflexivity).
  assert (E2 : creationDate r = snd (assign_dates (completed r) ds)) by (rewrite <- Ea; reflexivity).
  destruct (reparse_generic (trim line) (completed r) (priority r) ds W P D (description r)
              (trimmed_trim line) Hh Hds) as (Hts & Hh' & HSD & Hem & Hdsh).
  rewrite serializeTodo_eq, E1, E2.
  set (s := (if completed r then [120; 32] else []) ++ ser_prio (priority r)
            ++ ser_dates (completed r) (fst (assign_dates (completed r) ds))
                 (snd (assign_dates (completed r) ds))
            ++ description r) in *.
  assert (Ets : trim s = s) by (apply trim_id; exact Hts).
  assert (Hh'' := Hh'). rewrite <- Ets in Hh''.
  destruct (parse_of_head_shape s _ _ _ _ _ Hh'') as (Hc' & Hp' & Hd').
  assert (Hann : forall A (F : jsstr -> list A), F [] = [] ->
            (forall a w b, is_ws w = true -> F (a ++ w :: b) = F a ++ F b) ->
            (forall d, date_tok d = true -> F d = []) -> F s = F (trim line)).
  { intros A F H1 H2 H3.
    destruct Hh as (E & HW & _ & Hp). destruct Hh' as (Es & _ & _ & Hps).
    destruct Hds as (Hds & HD & _ & _).
    rewrite Es, E.
    rewrite (F_line A F H1 H2 H3 _ [] _ _ _ _ _ (List.Forall_nil _) (prio_shape_toks _ _ _ Hps) HSD Hem).
    rewrite (F_line A F H1 H2 H3 _ W _ _ _ _ _ HW (prio_shape_toks _ _ _ Hp) HD Hds).
    reflexivity. }
  assert (Hsig : forall sigil, (sigil < 45 \/ 57 < sigil) -> is_ws sigil = false ->
            sigil_runs sigil true s = sigil_runs sigil true (trim line)).
  { intros sigil Hr Hw. apply Hann; [reflexivity| |].
    - intros a w b Hw'. apply sigil_runs_split; assumption.
    - intros d Hd. apply sigil_runs_date; assumption. }
  destruct (projects_contexts_runs s) as [Hpr' Hcx'].
  destruct (projects_contexts_runs line) as [Hpr Hcx]. fold r in Hpr, Hcx.
  pose proof (tags_collect line) as Htg. fold r in Htg.
  split; [exact Hc'|]. split; [exact Hp'|].
  split; [rewrite Hpr', Hpr, Ets; apply Hsig; [lia|reflexivity]|].
  split; [rewrite Hcx', Hcx, Ets; apply Hsig; [lia|reflexivity]|].
  split.
  - rewrite tags_collect, Htg, !collect_tags_pairs, Ets. f_equal.
    apply Hann; [reflexivity|apply tag_pairs_split|apply tag_pairs_date].
  - intros Hcl.
    assert (Hcl' : completed r = true \/ (length ds < 2)%nat).
    { destruct Hcl as [Hcl|Hcl]; [left; exact Hcl|].
      destruct (completed r); [left; reflexivity|right].
      destruct ds as [|d1 [|d2 ds']]; cbn in Hcl |- *; try lia.
      discriminate Hcl. }
    rewrite (date_stage_of_shape _ _ _ _ (Hdsh Hcl')) in Hd'.
    injection Hd' as Ea' Edesc. rewrite Ea'. cbn [fst snd]. auto.
Qed.

(** C1 (as amended): re-parsing the serialization of a parsed line gives back
    its completed flag, priority, projects, contexts and tags; it gives back
    its dates and its description verbatim as well, unless the line is not
    completed and has a completion date (two leading dates), which
    [serializeTodo] does not write. *)
Theorem reparse_serialize (line : jsstr) :
  let r := parseTodoLine line in
  let r' := parseTodoLine (serializeTodo r) in
  completed r' = completed r /\ priority r' = priority r
  /\ projects r' = projects r /\ contexts r' = contexts r /\ tags r' = tags r
  /\ ((completed r = true \/ completionDate r = None) ->
      completionDate r' = completionDate r /\ creationDate r' = creationDate r
      /\ description r' = description r).
Proof. exact (reparse_fields line). Qed.

(** C2 (as amended): [serializeTodo] writes, in this order, ['x '] when
    completed; ['(P) '] when the priority is a non-empty string; the
    completion date and a space when completed and the completion date is a
    non-empty string; the creation date and a space when it is a non-empty
    string; then the description, and nothing else. *)
Theorem serialize_order (todo : Todo) : serializeTodo todo = concat (serialize_pieces todo).
Proof.
  destruct todo as [c p cd cr desc pr cx tg rw]. unfold serializeTodo, serialize_pieces.
  cbn [completed priority completionDate creationDate description].
  destruct c, p as [[|]|], cd as [[|]|], cr as [[|]|];
    cbv [default from_option id]; cbn [truthy andb app concat]; rewrite ?app_nil_r;
    repeat progress (rewrite <- ?app_assoc; cbn [app]); reflexivity.
Qed.

(** C2, as stated, fails: an empty priority string is set, but not written. *)
Lemma serialize_empty_priority_counterexample :
  serializeTodo {| completed := false; priority := Some []; completionDate := None;
                   creationDate := None; description := s2u "Task"; projects := [];
                   contexts := []; tags := ∅; raw := [] |} = s2u "Task".
Proof. reflexivity. Qed.

Lemma parseTodoTxt_kept (text : jsstr) : parseTodoTxt text = map parseTodoLine (kept_lines text).
Proof.
  unfold parseTodoTxt, kept_lines.
  assert (H : forall acc ls, fold_left (fun todos line =>
               if negb (Nat.eqb (length (trim line)) 0)
               then todos ++ [parseTodoLine line] else todos) ls acc
             = acc ++ map parseTodoLine (List.filter (fun line => negb (Nat.eqb (length (trim line)) 0)) ls)).
  { intros acc ls. revert acc. induction ls as [|l ls IH]; intros acc; cbn.
    - rewrite app_nil_r. reflexivity.
    - destruct (negb (Nat.eqb (length (trim l)) 0)); cbn; rewrite IH; [|reflexivity].
      rewrite <- app_assoc. reflexivity. }
  apply H.
Qed.

Lemma filter_index_ne_delete {A} (l : list A) (n : nat) (i : Z) :
  Z.of_nat n <= i -> filter_index_ne l n i = delete (Z.to_nat i - n)%nat l.
Proof.
  revert n. induction l as [|x l IH]; intros n Hn; [destruct (Z.to_nat i - n)%nat; reflexivity|].
  cbn [filter_index_ne]. destruct (Z.of_nat n =? i) eqn:E.
  - apply Z.eqb_eq in E. replace (Z.to_nat i - n)%nat with 0%nat by lia. cbn [delete list_delete].
    assert (Hg : forall m, i < Z.of_nat m -> filter_index_ne l m i = l).
    { clear IH. induction l as [|y l IH']; intros m Hm; [reflexivity|]. cbn [filter_index_ne].
      replace (Z.of_nat m =? i) with false by (symmetry; apply Z.eqb_neq; lia).
      rewrite IH' by lia. reflexivity. }
    apply Hg. lia.
  - apply Z.eqb_neq in E. replace (Z.to_nat i - n)%nat with (S (Z.to_nat i - S n)) by lia.
    cbn [delete list_delete]. rewrite IH by lia. reflexivity.
Qed.

(** ** Buffer operations *)

(** C8: on empty text [updateTaskAtLine] and [deleteTaskAtLine] return the
    empty text for every index; on non-empty text and an index outside
    [0, number of records) both return the text unchanged; deleting the only
    record returns the empty text. *)
Theorem edit_edge_cases (content : jsstr) (i : Z) (t : Todo) :
  updateTaskAtLine [] i t = [] /\ deleteTaskAtLine [] i = []
  /\ (content <> [] -> (i < 0 \/ Z.of_nat (length (parseTodoTxt content)) <= i) ->
      updateTaskAtLine content i t = content /\ deleteTaskAtLine content i = content)
  /\ (content <> [] -> length (parseTodoTxt content) = 1%nat -> deleteTaskAtLine content 0 = []).
Proof.
  split; [reflexivity|]. split; [reflexivity|]. split.
  - intros Hne Hi. unfold updateTaskAtLine, deleteTaskAtLine.
    destruct content as [|x c]; [contradiction|]. cbn [length Nat.eqb].
    replace ((i <? 0) || (Z.of_nat (length (parseTodoTxt (x :: c))) <=? i)) with true
      by (symmetry; apply orb_true_iff; rewrite Z.ltb_lt, Z.leb_le; exact Hi).
    split; reflexivity.
  - intros Hne Hl. unfold deleteTaskAtLine.
    destruct content as [|x c]; [contradiction|]. cbn [length Nat.eqb].
    destruct (parseTodoTxt (x :: c)) as [|y [|z l]]; cbn in Hl; try discriminate Hl.
    reflexivity.
Qed.

Lemma edit_edge_cases_witness :
  let c := s2u "x  a" in let t := parseTodoLine (s2u "b") in
  (c <> [] /\ (-1 < 0 \/ Z.of_nat (length (parseTodoTxt c)) <= -1)
   /\ updateTaskAtLine c (-1) t = c /\ deleteTaskAtLine c (-1) = c)
  /\ (c <> [] /\ length (parseTodoTxt c) = 1%nat /\ deleteTaskAtLine c 0 = []).
Proof.
  cbv zeta.
  assert (Hne : s2u "x  a" <> []) by discriminate.
  destruct (edit_edge_cases (s2u "x  a") (-1) (parseTodoLine (s2u "b"))) as (_ & _ & H1 & H2).
  split.
  - split; [exact Hne|]. split; [left; lia|]. apply H1; [exact Hne|left; lia].
  - split; [exact Hne|]. split; [vm_compute; reflexivity|]. apply H2; [exact Hne|vm_compute; reflexivity].
Defined.

Lemma edit_in_range (content : jsstr) (i : Z) (t : Todo) :
  content <> [] -> 0 <= i < Z.of_nat (length (kept_lines content)) ->
  updateTaskAtLine content i t
  = join_lf (map serializeTodo (<[Z.to_nat i := t]> (map parseTodoLine (kept_lines content))))
  /\ deleteTaskAtLine content i
     = join_lf (map serializeTodo (delete (Z.to_nat i) (map parseTodoLine (kept_lines content)))).
Proof.
  intros Hne Hi. unfold updateTaskAtLine, deleteTaskAtLine, updateTodoInList.
  destruct content as [|x c]; [contradiction|]. cbn [length Nat.eqb].
  rewrite parseTodoTxt_kept, length_map.
  set (ls := kept_lines (x :: c)) in *.
  replace ((i <? 0) || (Z.of_nat (length ls) <=? i)) with false
    by (symmetry; apply orb_false_iff; rewrite Z.ltb_ge, Z.leb_gt; lia).
  replace (Nat.eqb (length ls) 0) with false by (symmetry; apply Nat.eqb_neq; lia).
  split; [reflexivity|].
  rewrite (filter_index_ne_delete _ 0 i) by lia. rewrite Nat.sub_0_r.
  destruct (Nat.eqb (length (delete (Z.to_nat i) (map parseTodoLine ls))) 0) eqn:E; [|reflexivity].
  apply Nat.eqb_eq, length_zero_iff_nil in E. rewrite E. reflexivity.
Qed.

(** C10: on non-empty text and an in-range index, [updateTaskAtLine] and
    [deleteTaskAtLine] return the lines [serializeTodo (parseTodoLine line)]
    of every kept line (the lines that trim to nothing are dropped), with the
    targeted record replaced or removed, joined by newlines. *)
Theorem edit_rewrites_all (content : jsstr) (i : Z) (t : Todo) :
  content <> [] -> 0 <= i < Z.of_nat (length (kept_lines content)) ->
  updateTaskAtLine content i t
  = join_lf (map serializeTodo (<[Z.to_nat i := t]> (map parseTodoLine (kept_lines content))))
  /\ deleteTaskAtLine content i
     = join_lf (map serializeTodo (delete (Z.to_nat i) (map parseTodoLine (kept_lines content)))).
Proof. exact (edit_in_range content i t). Qed.

Lemma js_fold_left_pure {A B} (f : A -> B -> js_result A) (g : A -> B -> A) (l : list B) (a : A) :
  (forall a x, f a x = Normal (g a x)) -> js_fold_left f l a = Normal (fold_left g l a).
Proof.
  intros H. revert a. induction l as [|x l IH]; intros a; [reflexivity|].
  cbn [js_fold_left fold_left]. rewrite H. apply IH.
Qed.

Lemma parseTodoLine_js_pure (line : jsstr) : parseTodoLine_js line = Normal (parseTodoLine line).
Proof.
  unfold parseTodoLine_js, parseTodoLine. cbv zeta.
  destruct (completion_stage (trim line)) as [c R].
  assert (Hp : priority_stage_js R = Normal (priority_stage R)).
  { unfold priority_stage_js, priority_stage. destruct (priority_regex R); reflexivity. }
  assert (Hd : date_stage_js c (snd (priority_stage R))
               = Normal (date_stage c (snd (priority_stage R)))).
  { unfold date_stage_js, date_stage. destruct (date_regex _) as [fm|]; [|reflexivity].
    cbn [group read_str]. cbv [mbind js_bind]. destruct (date_regex _); reflexivity. }
  assert (Ht : js_fold_left tag_step_js (match_all tag_attempt (trim line)) ∅
               = Normal (collect_tags (trim line))).
  { apply js_fold_left_pure. intros o m. unfold tag_step_js, tag_step.
    destruct (group m 1) as [[|]|], (group m 2) as [[|]|]; reflexivity. }
  rewrite Hp. cbv [mbind js_bind]. destruct (priority_stage R) as [p R'].
  cbn [snd] in Hd. rewrite Hd. destruct (date_stage c R') as [[cd cr] R''].
  rewrite Ht. reflexivity.
Qed.

(** C9: no operation raises: the parser with its partial reads, and the
    buffer operations built on it, return normally, with the values of the
    pure embedding ([serializeTodo], [appendTaskToFile] and
    [updateTodoInList] contain no operation that can raise). *)
Theorem operations_total (line text : jsstr) (i : Z) (t : Todo) :
  parseTodoLine_js line = Normal (parseTodoLine line)
  /\ parseTodoTxt_js text = Normal (parseTodoTxt text)
  /\ updateTaskAtLine_js text i t = Normal (updateTaskAtLine text i t)
  /\ deleteTaskAtLine_js text i = Normal (deleteTaskAtLine text i).
Proof.
  assert (Htxt : forall text, parseTodoTxt_js text = Normal (parseTodoTxt text)).
  { intros tx. apply js_fold_left_pure. intros todos l.
    destruct (negb _); [|reflexivity]. rewrite parseTodoLine_js_pure. reflexivity. }
  split; [apply parseTodoLine_js_pure|]. split; [apply Htxt|].
  unfold updateTaskAtLine_js, updateTaskAtLine, deleteTaskAtLine_js, deleteTaskAtLine.
  destruct (Nat.eqb (length text) 0); [split; reflexivity|].
  rewrite Htxt. cbv [mbind js_bind mret js_ret].
  destruct (_ || _); [split; reflexivity|]. split; [reflexivity|].
  destruct (Nat.eqb _ 0); reflexivity.
Qed.

Lemma reparse_serialize_witness :
  let r := parseTodoLine (s2u "x 2024-01-02 2024-01-01 Call +mom due:x") in
  let r' := parseTodoLine (serializeTodo r) in
  (completed r = true \/ completionDate r = None)
  /\ completionDate r' = completionDate r /\ creationDate r' = creationDate r
  /\ description r' = description r.
Proof.
  pose proof (reparse_serialize (s2u "x 2024-01-02 2024-01-01 Call +mom due:x")) as H.
  cbv zeta in H |- *. destruct H as (_ & _ & _ & _ & _ & H).
  assert (Hc : completed (parseTodoLine (s2u "x 2024-01-02 2024-01-01 Call +mom due:x")) = true
               \/ completionDate (parseTodoLine (s2u "x 2024-01-02 2024-01-01 Call +mom due:x")) = None)
    by (left; vm_compute; reflexivity).
  split; [exact Hc|]. apply H. exact Hc.
Defined.

(** C1, as stated, fails: the completion date of a line that is not
    completed is lost in the round trip. *)
Lemma reparse_two_dates_counterexample :
  let r := parseTodoLine (s2u "2024-01-01 2024-01-02 Task") in
  completed r = false /\ completionDate r = Some (s2u "2024-01-01")
  /\ serializeTodo r = s2u "2024-01-02 Task"
  /\ completionDate (parseTodoLine (serializeTodo r)) = None.
Proof. vm_compute. repeat split. Qed.

Lemma date_prefix_witness :
  let R := snd (priority_stage (snd (completion_stage (trim (s2u "x (A) 2024-01-08 2024-01-01 Buy"))))) in
  let r := parseTodoLine (s2u "x (A) 2024-01-08 2024-01-01 Buy") in
  starts_with_date R (s2u "2024-01-08") (s2u "2024-01-01 Buy")
  /\ starts_with_date (s2u "2024-01-01 Buy") (s2u "2024-01-01") (s2u "Buy")
  /\ completionDate r = Some (s2u "2024-01-08") /\ creationDate r = Some (s2u "2024-01-01")
  /\ description r = s2u "Buy".
Proof.
  pose proof (date_prefix (s2u "x (A) 2024-01-08 2024-01-01 Buy")) as H.
  cbv zeta in H |- *. destruct H as (H & _ & _).
  assert (H1 : starts_with_date (snd (priority_stage (snd (completion_stage
                 (trim (s2u "x (A) 2024-01-08 2024-01-01 Buy"))))))
                 (s2u "2024-01-08") (s2u "2024-01-01 Buy"))
    by (exists 32; vm_compute; auto).
  assert (H2 : starts_with_date (s2u "2024-01-01 Buy") (s2u "2024-01-01") (s2u "Buy"))
    by (exists 32; vm_compute; auto).
  split; [exact H1|]. split; [exact H2|]. apply (H _ _ _ _ H1 H2).
Defined.

(** C3, as stated, fails: a date followed by a tab is recognised. *)
Lemma date_tab_counterexample :
  creationDate (parseTodoLine (s2u "2024-01-01" ++ 9 :: s2u "Task")) = Some (s2u "2024-01-01")
  /\ description (parseTodoLine (s2u "2024-01-01" ++ 9 :: s2u "Task")) = s2u "Task".
Proof. vm_compute. split; reflexivity. Qed.

Lemma priority_prefix_witness :
  let R0 := snd (completion_stage (trim (s2u "(B) Call"))) in
  let r := parseTodoLine (s2u "(B) Call") in
  (R0 = 40 :: 66 :: 41 :: 32 :: s2u "Call" /\ is_upper 66 = true /\ is_ws 32 = true)
  /\ priority r = Some [66]
  /\ (completionDate r, creationDate r, description r) = date_stage (completed r) (s2u "Call").
Proof.
  pose proof (priority_prefix (s2u "(B) Call")) as H.
  cbv zeta in H |- *. destruct H as (H & _).
  assert (H1 : snd (completion_stage (trim (s2u "(B) Call"))) = 40 :: 66 :: 41 :: 32 :: s2u "Call")
    by (vm_compute; reflexivity).
  split; [split; [exact H1|split; reflexivity]|].
  apply (H 66 32 (s2u "Call") H1); reflexivity.
Defined.

(** C4, as stated, fails: a priority followed by a tab is recognised. *)
Lemma priority_tab_counterexample :
  priority (parseTodoLine (s2u "(A)" ++ 9 :: s2u "Task")) = Some (s2u "A")
  /\ description (parseTodoLine (s2u "(A)" ++ 9 :: s2u "Task")) = s2u "Task".
Proof. vm_compute. split; reflexivity. Qed.

Lemma description_after_prefixes_witness :
  completed (parseTodoLine (s2u "x  (A)  Task")) = true
  /\ exists W P D,
    trim (s2u "x  (A)  Task") = s2u "x " ++ W ++ P ++ D ++ description (parseTodoLine (s2u "x  (A)  Task"))
    /\ no_lead_ws (P ++ D ++ description (parseTodoLine (s2u "x  (A)  Task"))).
Proof.
  pose proof (description_after_prefixes (s2u "x  (A)  Task")) as H.
  cbv zeta in H. destruct H as (W & P & D & E & _ & Hc & _).
  assert (Hx : completed (parseTodoLine (s2u "x  (A)  Task")) = true) by (vm_compute; reflexivity).
  split; [exact Hx|]. exists W, P, D. rewrite Hx in E.
  split; [rewrite E; rewrite <- app_assoc; reflexivity|]. apply Hc. exact Hx.
Defined.

(** C5, as stated, fails: the whitespace after [x ] is not kept. *)
Lemma description_retrim_counterexample :
  description (parseTodoLine (s2u "x  Task")) = s2u "Task".
Proof. vm_compute. reflexivity. Qed.

Lemma edit_rewrites_all_witness :
  let c := s2u "a" ++ [10; 10] ++ s2u "x  b " in
  let t := parseTodoLine (s2u "z") in
  (c <> [] /\ 0 <= 0 < Z.of_nat (length (kept_lines c)))
  /\ updateTaskAtLine c 0 t
     = join_lf (map serializeTodo (<[Z.to_nat 0 := t]> (map parseTodoLine (kept_lines c))))
  /\ deleteTaskAtLine c 0
     = join_lf (map serializeTodo (delete (Z.to_nat 0) (map parseTodoLine (kept_lines c)))).
Proof.
  cbv zeta.
  assert (H1 : s2u "a" ++ [10; 10] ++ s2u "x  b " <> []) by discriminate.
  assert (H2 : 0 <= 0 < Z.of_nat (length (kept_lines (s2u "a" ++ [10; 10] ++ s2u "x  b "))))
    by (split; [lia|vm_compute; reflexivity]).
  split; [split; [exact H1|exact H2]|].
  apply edit_rewrites_all; [exact H1|exact H2].
Defined.

(** The effect of C10 on a blank line and a non-canonical line. *)
Lemma edit_rewrites_all_example :
  deleteTaskAtLine (s2u "a" ++ [10; 10] ++ s2u "x  b ") 0 = s2u "x b"
  /\ updateTaskAtLine (s2u "a" ++ [10; 10] ++ s2u "x  b ") 0 (parseTodoLine (s2u "z"))
     = s2u "z" ++ [10] ++ s2u "x b".
Proof. vm_compute. split; reflexivity. Qed.


Lemma split_lf_ne (s : jsstr) : split_lf s <> [].
Proof.
  induction s as [|c t IH]; cbn [split_lf]; [discriminate|].
  destruct (c =? 10); [discriminate|]. destruct (split_lf t); discriminate.
Qed.

Lemma split_lf_app (a b : jsstr) : split_lf (a ++ 10 :: b) = split_lf a ++ split_lf b.
Proof.
  induction a as [|c a IH]; [reflexivity|]. cbn [app split_lf]. rewrite IH.
  destruct (c =? 10); [reflexivity|].
  destruct (split_lf a) as [|l ls] eqn:E; [exfalso; exact (split_lf_ne a E)|]. reflexivity.
Qed.

Lemma split_lf_nolf (l : jsstr) : Forall (fun c => c <> 10) l -> split_lf l = [l].
Proof.
  induction 1 as [|c l Hc _ IH]; [reflexivity|]. cbn [split_lf].
  replace (c =? 10) with false by (symmetry; apply Z.eqb_neq; exact Hc). rewrite IH. reflexivity.
Qed.

Lemma split_lf_lines (s : jsstr) : Forall (fun l => Forall (fun c => c <> 10) l) (split_lf s).
Proof.
  induction s as [|c t IH]; cbn [split_lf]; [repeat constructor|].
  destruct (c =? 10) eqn:E; [constructor; [constructor|exact IH]|].
  apply Z.eqb_neq in E.
  destruct (split_lf t) as [|l ls]; [repeat constructor; exact E|].
  inversion IH as [|? ? Hl Hls]; subst. constructor; [constructor; assumption|exact Hls].
Qed.

Lemma join_split_lf (s : jsstr) : join_lf (split_lf s) = s.
Proof.
  induction s as [|c t IH]; [reflexivity|]. cbn [split_lf].
  destruct (c =? 10) eqn:E.
  - apply Z.eqb_eq in E. subst c. destruct (split_lf t) as [|l ls] eqn:Es;
      [exfalso; exact (split_lf_ne t Es)|]. cbn [join_lf]. rewrite <- IH. reflexivity.
  - destruct (split_lf t) as [|l ls] eqn:Es; [exfalso; exact (split_lf_ne t Es)|].
    rewrite <- IH. destruct ls; reflexivity.
Qed.

Lemma split_join_lf (ls : list jsstr) :
  ls <> [] -> Forall (fun l => Forall (fun c => c <> 10) l) ls -> split_lf (join_lf ls) = ls.
Proof.
  intros Hne H. induction H as [|l ls Hl Hls IH]; [contradiction|].
  destruct ls as [|l' ls']; [apply split_lf_nolf; exact Hl|].
  change (join_lf (l :: l' :: ls')) with (l ++ 10 :: join_lf (l' :: ls')).
  rewrite split_lf_app, split_lf_nolf by exact Hl. rewrite IH by discriminate. reflexivity.
Qed.

Lemma trim_start_nil (s : jsstr) : trim_start s = [] <-> Forall (fun c => is_ws c = true) s.
Proof.
  induction s as [|c t IH]; cbn [trim_start]; [split; [constructor|reflexivity]|].
  destruct (is_ws c) eqn:E.
  - rewrite IH. split; [intros; constructor; assumption|intros H; inversion H; assumption].
  - split; [discriminate|intros H; apply Forall_cons in H as [Hc _]; congruence].
Qed.

Lemma trim_nil (s : jsstr) : trim s = [] <-> Forall (fun c => is_ws c = true) s.
Proof.
  rewrite <- trim_start_nil. unfold trim.
  destruct (trim_start_spec s) as (w & _ & _ & Hn).
  split.
  - intros H. apply (f_equal (@rev Z)) in H. rewrite rev_involutive in H. cbn in H.
    apply trim_start_nil in H. apply Forall_rev in H. rewrite ?rev_involutive in H.
    destruct (trim_start s) as [|c t]; [reflexivity|]. apply Forall_cons in H as [Hc _]. cbn in Hn. congruence.
  - intros ->. reflexivity.
Qed.

Lemma kept_lines_app (a b : jsstr) : kept_lines (a ++ 10 :: b) = kept_lines a ++ kept_lines b.
Proof. unfold kept_lines. rewrite split_lf_app. apply List.filter_app. Qed.

Lemma kept_lines_lf (text : jsstr) : Forall (fun l => Forall (fun c => c <> 10) l) (kept_lines text).
Proof.
  unfold kept_lines. apply List.Forall_forall. intros l Hl. apply List.filter_In in Hl as [Hl _].
  pose proof (split_lf_lines text) as H. rewrite List.Forall_forall in H. apply H, Hl.
Qed.

Lemma kept_lines_nonblank (text : jsstr) : Forall (fun l => trim l <> []) (kept_lines text).
Proof.
  unfold kept_lines. apply List.Forall_forall. intros l Hl. apply List.filter_In in Hl as [_ Hl].
  intros E. rewrite E in Hl. discriminate Hl.
Qed.

Lemma Forall_trim (Q : Z -> Prop) (s : jsstr) : Forall Q s -> Forall Q (trim s).
Proof.
  assert (Hts : forall u, Forall Q u -> Forall Q (trim_start u)).
  { intros u Hu. destruct (trim_start_spec u) as (w & Ew & _ & _). rewrite Ew in Hu.
    apply Forall_app in Hu as [_ Hu]. exact Hu. }
  intros H. unfold trim. apply Forall_rev, Hts, Forall_rev, Hts, H.
Qed.

Lemma description_suffix (line : jsstr) :
  exists X, trim line = X ++ description (parseTodoLine line) /\ ews X.
Proof.
  destruct (parse_shape line) as (W & P & ds & D & (E & HW & _ & Hp) & (_ & HD & _ & _) & _).
  exists ((if completed (parseTodoLine line) then [120; 32] ++ W else []) ++ P ++ D).
  split; [rewrite E, <- !app_assoc; reflexivity|].
  apply ews_app; [|apply ews_app].
  - destruct (completed _); [|left; reflexivity]. apply ews_app; [|apply ews_ws; exact HW].
    right. exists [120], 32. auto.
  - exact (ews_toks _ _ (prio_shape_toks _ _ _ Hp)).
  - exact (ews_toks _ _ HD).
Qed.

Lemma description_nil (line : jsstr) :
  description (parseTodoLine line) = [] <-> trim line = [].
Proof.
  destruct (description_suffix line) as (X & E & HX). split.
  - intros Hd. rewrite Hd, app_nil_r in E. rewrite E. apply ews_trimmed; [exact HX|].
    rewrite <- E. exact (proj2 (trimmed_trim line)).
  - intros Ht. rewrite Ht in E. symmetry in E. apply app_eq_nil in E as [_ ->]. reflexivity.
Qed.

Lemma parse_values_shape (line : jsstr) :
  (priority (parseTodoLine line) = None
   \/ exists ch, priority (parseTodoLine line) = Some [ch] /\ is_upper ch = true)
  /\ (forall d, completionDate (parseTodoLine line) = Some d -> date_tok d = true)
  /\ (forall d, creationDate (parseTodoLine line) = Some d -> date_tok d = true).
Proof.
  destruct (parse_shape line) as (W & P & ds & D & (_ & _ & _ & Hp) & (Hds & _ & Hlen & _) & Ea).
  split.
  - destruct Hp as [(-> & _)|(ch & w & -> & _ & Hc & _)]; [left; reflexivity|right; eauto].
  - assert (Hin : forall d, (completionDate (parseTodoLine line) = Some d
                            \/ creationDate (parseTodoLine line) = Some d) -> date_tok d = true).
    { intros d Hd. rewrite List.Forall_forall in Hds. apply Hds.
      rewrite <- (assign_dates_list (completed (parseTodoLine line)) ds Hlen), <- Ea.
      apply List.in_or_app. cbn [fst snd].
      destruct Hd as [-> | ->]; [left|right]; left; reflexivity. }
    split; intros d Hd; apply Hin; auto.
Qed.

Lemma ser_dates_forall (Q : Z -> Prop) (c : bool) (cd cr : option jsstr) :
  Q 32 -> (forall d, cd = Some d -> Forall Q d) -> (forall d, cr = Some d -> Forall Q d) ->
  Forall Q (ser_dates c cd cr).
Proof.
  intros H32 Hcd Hcr. unfold ser_dates. apply Forall_app. split.
  - destruct (c && truthy cd); [|constructor]. destruct cd as [d|]; cbv [default from_option id];
      [|repeat constructor; exact H32]. apply Forall_app. split; [apply Hcd; reflexivity|repeat constructor; exact H32].
  - destruct (truthy cr); [|constructor]. destruct cr as [d|]; cbv [default from_option id];
      [|repeat constructor; exact H32]. apply Forall_app. split; [apply Hcr; reflexivity|repeat constructor; exact H32].
Qed.

Lemma canonical_trimmed (line : jsstr) : trimmed (serializeTodo (parseTodoLine line)).
Proof.
  destruct (parse_shape line) as (W & P & ds & D & Hh & Hds & Ea).
  set (r := parseTodoLine line) in *.
  assert (E1 : completionDate r = fst (assign_dates (completed r) ds)) by (rewrite <- Ea; reflexivity).
  assert (E2 : creationDate r = snd (assign_dates (completed r) ds)) by (rewrite <- Ea; reflexivity).
  destruct (reparse_generic (trim line) (completed r) (priority r) ds W P D (description r)
              (trimmed_trim line) Hh Hds) as (Hts & _).
  rewrite serializeTodo_eq, E1, E2. exact Hts.
Qed.

Lemma canonical_no_lf (line : jsstr) :
  Forall (fun c => c <> 10) line -> Forall (fun c => c <> 10) (serializeTodo (parseTodoLine line)).
Proof.
  intros Hl. destruct (parse_values_shape line) as (Hp & Hcd & Hcr).
  assert (Hdate : forall o, (forall d, o = Some d -> date_tok d = true) ->
                  forall d, o = Some d -> Forall (fun c => c <> 10) d).
  { intros o Ho d Hd. destruct (date_tok_chars d (Ho d Hd)) as (Hc & _).
    eapply Forall_impl; [exact Hc|]. intros x Hx. cbv beta in Hx. lia. }
  rewrite serializeTodo_eq. apply Forall_app. split.
  { destruct (completed _); repeat constructor; discriminate. }
  apply Forall_app. split.
  { destruct Hp as [-> | (ch & -> & Hch)]; [constructor|]. cbn [ser_prio app].
    unfold is_upper in Hch. apply andb_prop in Hch as [H1 H2]. apply Z.leb_le in H1, H2.
    repeat constructor; lia. }
  apply Forall_app. split.
  { apply ser_dates_forall; [discriminate|apply Hdate, Hcd|apply Hdate, Hcr]. }
  destruct (description_suffix line) as (X & E & _).
  pose proof (Forall_trim _ _ Hl) as Ht. rewrite E in Ht. apply Forall_app in Ht as [_ Ht]. exact Ht.
Qed.

Lemma canonical_nonblank (line : jsstr) :
  trim line <> [] -> trim (serializeTodo (parseTodoLine line)) <> [].
Proof.
  intros Hne. rewrite (trim_id _ (canonical_trimmed line)), serializeTodo_eq.
  intros E. apply app_eq_nil in E as [_ E]. apply app_eq_nil in E as [_ E].
  apply app_eq_nil in E as [_ E]. apply description_nil in E. contradiction.
Qed.

Lemma parseTodoTxt_app (a b : jsstr) :
  parseTodoTxt (a ++ 10 :: b) = parseTodoTxt a ++ parseTodoTxt b.
Proof. rewrite !parseTodoTxt_kept, kept_lines_app. apply map_app. Qed.

Lemma parseTodoTxt_line (l : jsstr) :
  Forall (fun c => c <> 10) l ->
  parseTodoTxt l = if forallb is_ws l then [] else [parseTodoLine l].
Proof.
  intros Hl. rewrite parseTodoTxt_kept. unfold kept_lines. rewrite split_lf_nolf by exact Hl.
  cbn [List.filter]. destruct (forallb is_ws l) eqn:E.
  - pose proof (proj1 (List.forallb_forall is_ws l) E) as E'.
    replace (trim l) with (@nil Z); [reflexivity|]. symmetry. apply trim_nil. apply List.Forall_forall. exact E'.
  - destruct (length (trim l)) eqn:El; [|reflexivity].
    apply length_zero_iff_nil, trim_nil in El. exfalso.
    rewrite List.Forall_forall in El. rewrite <- List.forallb_forall in El. congruence.
Qed.

Lemma parseTodoTxt_join (ls : list jsstr) :
  Forall (fun l => Forall (fun c => c <> 10) l /\ trim l <> []) ls ->
  parseTodoTxt (join_lf ls) = map parseTodoLine ls.
Proof.
  intros H. destruct ls as [|l ls]; [reflexivity|].
  rewrite parseTodoTxt_kept. unfold kept_lines.
  rewrite split_join_lf; [|discriminate|eapply Forall_impl; [exact H|intros x [Hx _]; exact Hx]].
  f_equal. apply List.forallb_filter_id. apply List.forallb_forall. intros x Hx.
  rewrite List.Forall_forall in H. destruct (H x Hx) as [_ Hn].
  destruct (length (trim x)) eqn:E; [apply length_zero_iff_nil in E; contradiction|reflexivity].
Qed.

Lemma map_delete_comm {A B} (f : A -> B) (n : nat) (l : list A) :
  map f (delete n l) = delete n (map f l).
Proof.
  revert n. induction l as [|x l IH]; intros n; [destruct n; reflexivity|].
  destruct n; cbn [map delete list_delete]; [reflexivity|]. rewrite IH. reflexivity.
Qed.

Lemma map_insert_comm {A B} (f : A -> B) (n : nat) (x : A) (l : list A) :
  map f (<[n := x]> l) = <[n := f x]> (map f l).
Proof.
  revert n. induction l as [|y l IH]; intros n; [destruct n; reflexivity|].
  destruct n; cbn [map insert list_insert]; [reflexivity|]. rewrite IH. reflexivity.
Qed.

Lemma length_delete_lt {A} (n : nat) (l : list A) :
  (n < length l)%nat -> length (delete n l) = (length l - 1)%nat.
Proof.
  revert n. induction l as [|x l IH]; intros n H; cbn in H; [lia|].
  destruct n; cbn [delete list_delete length]; [lia|]. rewrite IH by lia. lia.
Qed.

Lemma canonical_single_line (line : jsstr) :
  single_line line -> single_line (serializeTodo (parseTodoLine line)).
Proof. intros [H1 H2]. split; [apply canonical_no_lf, H1|apply canonical_nonblank, H2]. Qed.

Lemma kept_single_line (text : jsstr) : Forall single_line (kept_lines text).
Proof.
  pose proof (kept_lines_lf text) as H1. pose proof (kept_lines_nonblank text) as H2.
  rewrite List.Forall_forall in H1, H2 |- *. intros l Hl. split; auto.
Qed.

Lemma reparse_grammar_fields (line : jsstr) :
  grammar_fields (parseTodoLine (serializeTodo (parseTodoLine line)))
  = grammar_fields (parseTodoLine line).
Proof.
  destruct (reparse_fields line) as (H1 & H2 & H3 & H4 & H5 & _).
  unfold grammar_fields. rewrite H1, H2, H3, H4, H5. reflexivity.
Qed.

Lemma parseTodoTxt_single (s : jsstr) : single_line s -> parseTodoTxt s = [parseTodoLine s].
Proof.
  intros [Hl Hn]. rewrite (parseTodoTxt_line s Hl).
  destruct (forallb is_ws s) eqn:E; [|reflexivity]. exfalso. apply Hn, trim_nil.
  apply List.Forall_forall, List.forallb_forall, E.
Qed.

Lemma trim_start_app_r (s w : jsstr) : trim_start s <> [] -> trim_start (s ++ w) = trim_start s ++ w.
Proof.
  induction s as [|c t IH]; cbn [trim_start app]; [contradiction|].
  destruct (is_ws c); [exact IH|reflexivity].
Qed.

Lemma trim_ws_around (W1 s W2 : jsstr) :
  Forall (fun c => is_ws c = true) W1 -> Forall (fun c => is_ws c = true) W2 ->
  trim (W1 ++ s ++ W2) = trim s.
Proof.
  intros H1 H2. unfold trim. rewrite trim_start_ws_app by exact H1.
  destruct (decide (trim_start s = [])) as [E|E].
  - assert (Hs : Forall (fun c => is_ws c = true) s) by (apply trim_start_nil, E).
    rewrite E. rewrite (proj2 (trim_start_nil (s ++ W2))); [reflexivity|].
    apply Forall_app; split; assumption.
  - rewrite trim_start_app_r by exact E. rewrite rev_app_distr, trim_start_ws_app; [reflexivity|].
    apply Forall_rev, H2.
Qed.

Lemma parse_trim_eq (l l' : jsstr) :
  trim l = trim l' -> without_raw (parseTodoLine l) = without_raw (parseTodoLine l').
Proof.
  intros E. unfold parseTodoLine. rewrite E.
  destruct (completion_stage (trim l')) as [c r].
  destruct (priority_stage r) as [p r'].
  destruct (date_stage c r') as [[cd cr] r'']. reflexivity.
Qed.

Lemma raw_parse (l : jsstr) : raw (parseTodoLine l) = l.
Proof.
  unfold parseTodoLine.
  destruct (completion_stage (trim l)) as [c r].
  destruct (priority_stage r) as [p r'].
  destruct (date_stage c r') as [[cd cr] r'']. reflexivity.
Qed.

Lemma split_lf_forall (Q : Z -> Prop) (s : jsstr) :
  Forall Q s -> Forall (fun l => Forall Q l) (split_lf s).
Proof.
  induction 1 as [|c t Hc Ht IH]; cbn [split_lf]; [repeat constructor|].
  destruct (c =? 10); [constructor; [constructor|exact IH]|].
  destruct (split_lf t) as [|l ls]; [repeat constructor; exact Hc|].
  apply Forall_cons in IH as [Hl Hls]. constructor; [constructor; assumption|exact Hls].
Qed.

Lemma join_lf_forall (Q : Z -> Prop) (ls : list jsstr) :
  Q 10 -> Forall (fun l => Forall Q l) ls -> Forall Q (join_lf ls).
Proof.
  intros H10. induction 1 as [|l ls Hl Hls IH]; [constructor|].
  destruct ls as [|l' ls']; [exact Hl|].
  change (join_lf (l :: l' :: ls')) with (l ++ 10 :: join_lf (l' :: ls')).
  apply Forall_app. split; [exact Hl|constructor; assumption].
Qed.

Lemma sigil_runs_tokens (sigil : Z) (b : bool) (s : jsstr) :
  Forall ws_free_token (sigil_runs sigil b s).
Proof.
  revert b. induction s as [|c t IH]; intros b; [constructor|]. cbn [sigil_runs].
  destruct (b && (c =? sigil)); [|apply IH].
  destruct (span_nonws t) as [run rest] eqn:E. cbn [fst].
  destruct (span_nonws_spec _ _ _ E) as (_ & Hrun & _).
  destruct run as [|x run]; [apply IH|]. constructor; [|apply IH].
  split; [discriminate|exact Hrun].
Qed.

Lemma words_acc_tokens (cur s : jsstr) :
  Forall (fun c => is_ws c = false) cur -> Forall ws_free_token (words_acc cur s).
Proof.
  assert (Hrev : forall cur, cur <> [] -> Forall (fun c => is_ws c = false) cur -> ws_free_token (rev cur)).
  { intros cu Hne Hc. split; [|apply Forall_rev, Hc].
    intros E. apply (f_equal (@rev Z)) in E. rewrite rev_involutive in E. contradiction. }
  revert cur. induction s as [|c t IH]; intros cur Hc; cbn [words_acc].
  - destruct cur as [|x cu]; [constructor|]. constructor; [apply Hrev; [discriminate|exact Hc]|constructor].
  - destruct (is_ws c) eqn:Ew.
    + destruct cur as [|x cu]; [apply IH; constructor|].
      constructor; [apply Hrev; [discriminate|exact Hc]|apply IH; constructor].
    + apply IH. constructor; assumption.
Qed.

Lemma break_colon_spec (s a b : jsstr) : break_colon s = Some (a, b) -> s = a ++ 58 :: b.
Proof.
  revert a. induction s as [|z s IH]; intros a E; cbn [break_colon] in E; [discriminate|].
  destruct (z =? 58) eqn:Ez.
  - injection E as <- <-. apply Z.eqb_eq in Ez. subst. reflexivity.
  - destruct (break_colon s) as [[a' b']|] eqn:E'; [|discriminate].
    injection E as <- ->. cbn [app]. f_equal. apply IH. reflexivity.
Qed.

Lemma tag_pairs_tokens (s : jsstr) :
  Forall (fun kv => ws_free_token (fst kv) /\ ws_free_token (snd kv)) (tag_pairs s).
Proof.
  unfold tag_pairs. pose proof (words_acc_tokens [] s (List.Forall_nil _)) as Hw.
  fold (words s) in Hw. induction Hw as [|t ws [_ Ht] _ IH]; [constructor|].
  cbn [omap list_omap].
  destruct (if starts_with [43] t || starts_with [64] t then None else token_tag t) as [[k v]|] eqn:E;
    [|exact IH].
  constructor; [|exact IH].
  destruct (starts_with [43] t || starts_with [64] t); [discriminate|].
  unfold token_tag in E. destruct t as [|c t']; [discriminate|].
  destruct (break_colon t') as [[a [|b0 b]]|] eqn:Eb; try discriminate.
  injection E as <- <-. apply break_colon_spec in Eb. subst t'.
  apply Forall_cons in Ht as [Hc Ht]. apply Forall_app in Ht as [Ha Hb].
  apply Forall_cons in Hb as [_ Hb]. cbn [fst snd].
  split; split; try discriminate; [constructor; assumption|exact Hb].
Qed.

Lemma fold_set_prop_forall (P : jsstr -> jsstr -> Prop) (ps : list (jsstr * jsstr)) (o : jsobj) :
  map_Forall P o -> Forall (fun kv => P (fst kv) (snd kv)) ps ->
  map_Forall P (fold_left (fun o '(k, v) => set_prop o k v) ps o).
Proof.
  intros Ho Hps. revert o Ho. induction Hps as [|[k v] ps Hkv _ IH]; intros o Ho; [exact Ho|].
  cbn [fold_left]. apply IH. unfold set_prop.
  destruct (decide (k = s2u "__proto__")); [exact Ho|]. apply map_Forall_insert_2; assumption.
Qed.

(** ** Further properties of the parser and the buffer operations *)

Ltac decide_concrete := apply (bool_decide_unpack _); vm_compute; exact I.

(** [parseTodoTxt] treats every newline as a line break: the records of two
    texts joined by a newline are the records of the first text followed by
    those of the second. *)
Theorem parseTodoTxt_lf_split (a b : jsstr) :
  parseTodoTxt (a ++ 10 :: b) = parseTodoTxt a ++ parseTodoTxt b.
Proof. apply parseTodoTxt_app. Qed.

(** On a text without a newline, [parseTodoTxt] returns no record when the
    text is whitespace only, and otherwise the single record
    [parseTodoLine text]. *)
Theorem parseTodoTxt_single_line (l : jsstr) :
  Forall (fun c => c <> 10) l ->
  parseTodoTxt l = if forallb is_ws l then [] else [parseTodoLine l].
Proof. apply parseTodoTxt_line. Qed.

Lemma parseTodoTxt_single_line_witness :
  Forall (fun c => c <> 10) (s2u "(A) Call mom")
  /\ parseTodoTxt (s2u "(A) Call mom")
     = (if forallb is_ws (s2u "(A) Call mom") then [] else [parseTodoLine (s2u "(A) Call mom")]).
Proof.
  assert (H : Forall (fun c => c <> 10) (s2u "(A) Call mom")) by decide_concrete.
  split; [exact H|exact (parseTodoTxt_single_line (s2u "(A) Call mom") H)].
Defined.

(** [parseTodoTxt] returns no record exactly when the text is made of
    whitespace only (newlines included), the empty text among them. *)

Lemma parseTodoTxt_nil_iff (text : jsstr) :
  parseTodoTxt text = [] <-> Forall (fun c => is_ws c = true) text.
Proof.
  rewrite parseTodoTxt_kept. unfold kept_lines. split.
  - intros H. apply map_eq_nil in H. rewrite <- (join_split_lf text).
    apply join_lf_forall; [reflexivity|]. apply List.Forall_forall. intros l Hl.
    apply trim_nil. destruct (trim l) as [|c t] eqn:E; [reflexivity|]. exfalso.
    assert (Hin : In l (List.filter (fun line => negb (Nat.eqb (length (trim line)) 0)) (split_lf text)))
      by (apply List.filter_In; split; [exact Hl|rewrite E; reflexivity]).
    rewrite H in Hin. exact Hin.
  - intros H. pose proof (split_lf_forall _ _ H) as Hs.
    induction Hs as [|l ls Hl _ IH]; [reflexivity|]. cbn [List.filter].
    rewrite (proj2 (trim_nil l) Hl). exact IH.
Qed.

(** The [raw] fields of the records of [parseTodoTxt] are, in order, exactly
    the lines of the text (split at ["\n"]) that do not trim to the empty
    string: blank lines are dropped, and no other line is. *)
Theorem parseTodoTxt_raw_lines (text : jsstr) : map raw (parseTodoTxt text) = kept_lines text.
Proof.
  rewrite parseTodoTxt_kept, map_map.
  transitivity (map (fun l => l) (kept_lines text)); [apply map_ext, raw_parse|apply map_id].
Qed.

(** Joining non-blank lines without newlines by ["\n"] and parsing gives one
    record per line: [parseTodoLine] of each line, in order. *)
Theorem parseTodoTxt_joined_lines (ls : list jsstr) :
  Forall single_line ls -> parseTodoTxt (join_lf ls) = map parseTodoLine ls.
Proof. intros H. apply parseTodoTxt_join. exact H. Qed.

Lemma parseTodoTxt_joined_lines_witness :
  let ls := [s2u "x 2024-01-02 Pay +bills"; s2u "(B) Call @phone"] in
  Forall single_line ls /\ parseTodoTxt (join_lf ls) = map parseTodoLine ls.
Proof.
  cbv zeta.
  assert (H : Forall single_line [s2u "x 2024-01-02 Pay +bills"; s2u "(B) Call @phone"])
    by (unfold single_line; decide_concrete).
  split; [exact H|exact (parseTodoTxt_joined_lines _ H)].
Defined.

(** Two texts whose lines trim to the same strings (for example the same file
    with CRLF line ends, or with indented lines) give the same records, apart
    from the [raw] field. *)

Lemma parseTodoTxt_trim_lines (ls ls' : list jsstr) :
  Forall (fun l => Forall (fun c => c <> 10) l) ls -> Forall (fun l => Forall (fun c => c <> 10) l) ls' ->
  Forall2 (fun l l' => trim l = trim l') ls ls' ->
  map without_raw (parseTodoTxt (join_lf ls)) = map without_raw (parseTodoTxt (join_lf ls')).
Proof.
  intros H1 H2 H. rewrite !parseTodoTxt_kept. unfold kept_lines.
  destruct ls as [|l ls]; [inversion H; reflexivity|].
  destruct ls' as [|l' ls']; [inversion H|].
  rewrite !split_join_lf by (assumption || discriminate).
  clear H1 H2. revert H. generalize (l' :: ls') as L'. generalize (l :: ls) as L. intros L L' H.
  induction H as [|x x' xs xs' E _ IH]; [reflexivity|].
  cbn [List.filter]. rewrite E.
  destruct (negb (Nat.eqb (length (trim x')) 0)); [|exact IH].
  cbn [map]. rewrite (parse_trim_eq x x' E). f_equal. exact IH.
Qed.

Lemma parseTodoTxt_trim_lines_witness :
  let ls := [s2u "(A) Call mom +family"; s2u "x done"] in
  let ls' := [s2u "(A) Call mom +family" ++ [13]; [32; 32] ++ s2u "x done" ++ [13]] in
  (Forall (fun l => Forall (fun c => c <> 10) l) ls /\ Forall (fun l => Forall (fun c => c <> 10) l) ls'
   /\ Forall2 (fun l l' => trim l = trim l') ls ls')
  /\ map without_raw (parseTodoTxt (join_lf ls)) = map without_raw (parseTodoTxt (join_lf ls')).
Proof.
  cbv zeta.
  assert (H1 : Forall (fun l => Forall (fun c => c <> 10) l) [s2u "(A) Call mom +family"; s2u "x done"])
    by decide_concrete.
  assert (H2 : Forall (fun l => Forall (fun c => c <> 10) l)
                 [s2u "(A) Call mom +family" ++ [13]; [32; 32] ++ s2u "x done" ++ [13]])
    by decide_concrete.
  assert (H3 : Forall2 (fun l l' => trim l = trim l') [s2u "(A) Call mom +family"; s2u "x done"]
                 [s2u "(A) Call mom +family" ++ [13]; [32; 32] ++ s2u "x done" ++ [13]])
    by decide_concrete.
  split; [split; [exact H1|split; [exact H2|exact H3]]|].
  exact (parseTodoTxt_trim_lines _ _ H1 H2 H3).
Defined.

(** The description of [parseTodoLine] is empty exactly when the line is
    blank (trims to the empty string). *)
Theorem description_empty_iff (line : jsstr) :
  description (parseTodoLine line) = [] <-> trim line = [].
Proof. apply description_nil. Qed.

(** The values [parseTodoLine] produces are well formed: a priority is one
    uppercase ASCII letter; a completion or creation date is 4 digits, ['-'],
    2 digits, ['-'], 2 digits; and a completion date is set only on a
    completed record or together with a creation date. *)
Theorem parse_priority_dates_form (line : jsstr) :
  let r := parseTodoLine line in
  (priority r = None \/ exists ch, priority r = Some [ch] /\ 65 <= ch <= 90)
  /\ (forall d, completionDate r = Some d -> date_tok d = true)
  /\ (forall d, creationDate r = Some d -> date_tok d = true)
  /\ (completionDate r <> None -> completed r = true \/ creationDate r <> None).
Proof.
  cbv zeta. destruct (parse_values_shape line) as (Hp & Hcd & Hcr).
  split; [|split; [exact Hcd|split; [exact Hcr|]]].
  - destruct Hp as [H|(ch & H & Hu)]; [left; exact H|right; exists ch; split; [exact H|]].
    unfold is_upper in Hu. apply andb_prop in Hu as [H1 H2]. apply Z.leb_le in H1, H2. lia.
  - destruct (parse_shape line) as (_ & _ & ds & _ & _ & _ & Ea). revert Ea.
    generalize (completionDate (parseTodoLine line)) (creationDate (parseTodoLine line))
      (completed (parseTodoLine line)).
    intros a b c Ea Hn. destruct c; [left; reflexivity|right].
    destruct ds as [|d1 [|d2 ds]]; simpl in Ea; injection Ea as E1 E2; subst;
      [contradiction|contradiction|discriminate].
Qed.

(** Projects, contexts, tag keys and tag values are never empty and never
    contain whitespace. *)

Lemma parse_annotation_tokens (line : jsstr) :
  Forall ws_free_token (projects (parseTodoLine line))
  /\ Forall ws_free_token (contexts (parseTodoLine line))
  /\ map_Forall (fun k v => ws_free_token k /\ ws_free_token v) (tags (parseTodoLine line)).
Proof.
  destruct (projects_contexts_runs line) as [-> ->].
  split; [apply sigil_runs_tokens|]. split; [apply sigil_runs_tokens|].
  rewrite tags_collect, collect_tags_pairs. apply fold_set_prop_forall; [apply map_Forall_empty|].
  apply tag_pairs_tokens.
Qed.

(** Whitespace around a line does not change its record, apart from the
    [raw] field. *)
Theorem parse_surrounding_whitespace (W1 line W2 : jsstr) :
  Forall (fun c => is_ws c = true) W1 -> Forall (fun c => is_ws c = true) W2 ->
  without_raw (parseTodoLine (W1 ++ line ++ W2)) = without_raw (parseTodoLine line).
Proof. intros H1 H2. apply parse_trim_eq, trim_ws_around; assumption. Qed.

Lemma parse_surrounding_whitespace_witness :
  (Forall (fun c => is_ws c = true) [32; 9] /\ Forall (fun c => is_ws c = true) [13])
  /\ without_raw (parseTodoLine ([32; 9] ++ s2u "(A) 2024-01-01 Task +p" ++ [13]))
     = without_raw (parseTodoLine (s2u "(A) 2024-01-01 Task +p")).
Proof.
  assert (H1 : Forall (fun c => is_ws c = true) [32; 9]) by decide_concrete.
  assert (H2 : Forall (fun c => is_ws c = true) [13]) by decide_concrete.
  split; [split; assumption|exact (parse_surrounding_whitespace _ _ _ H1 H2)].
Defined.

(** The serialization of a parsed line is in canonical form: it is trimmed;
    it contains no newline when the line contains none; and it is non-empty
    when the line is not blank. *)
Theorem serialize_canonical_line (line : jsstr) :
  let s := serializeTodo (parseTodoLine line) in
  trim s = s /\ (Forall (fun c => c <> 10) line -> Forall (fun c => c <> 10) s)
  /\ (trim line <> [] -> s <> []).
Proof.
  cbv zeta. split; [apply trim_id, canonical_trimmed|]. split; [apply canonical_no_lf|].
  intros H E. apply (canonical_nonblank line H). rewrite E. reflexivity.
Qed.

(** The canonical form is stable: serializing the re-parse of a serialized
    record gives the same text, when the record is completed or has no
    completion date. *)

Lemma serialize_stable (line : jsstr) :
  let r := parseTodoLine line in
  (completed r = true \/ completionDate r = None) ->
  serializeTodo (parseTodoLine (serializeTodo r)) = serializeTodo r.
Proof.
  cbv zeta. intros H.
  destruct (reparse_fields line) as (H1 & H2 & _ & _ & _ & H6).
  destruct (H6 H) as (H7 & H8 & H9).
  rewrite (serializeTodo_eq (parseTodoLine (serializeTodo (parseTodoLine line)))).
  rewrite H1, H2, H7, H8, H9, <- serializeTodo_eq. reflexivity.
Qed.

Lemma serialize_stable_witness :
  let r := parseTodoLine (s2u "x 2024-01-02 2024-01-01 Done +p due:x") in
  (completed r = true \/ completionDate r = None)
  /\ serializeTodo (parseTodoLine (serializeTodo r)) = serializeTodo r.
Proof.
  cbv zeta.
  assert (H : completed (parseTodoLine (s2u "x 2024-01-02 2024-01-01 Done +p due:x")) = true
              \/ completionDate (parseTodoLine (s2u "x 2024-01-02 2024-01-01 Done +p due:x")) = None)
    by (left; vm_compute; reflexivity).
  split; [exact H|exact (serialize_stable _ H)].
Defined.

(** When a record serializes to one non-blank line without a newline,
    [appendTaskToFile] followed by [parseTodoTxt] gives the records of the
    content followed by the re-parse of that line. *)

Lemma appendTaskToFile_reparse (content : jsstr) (t : Todo) :
  single_line (serializeTodo t) ->
  parseTodoTxt (appendTaskToFile content t) = parseTodoTxt content ++ [parseTodoLine (serializeTodo t)].
Proof.
  intros Hs. unfold appendTaskToFile. destruct content as [|x c]; cbn [length Nat.eqb].
  - apply parseTodoTxt_single, Hs.
  - rewrite parseTodoTxt_app, (parseTodoTxt_single (serializeTodo t) Hs). reflexivity.
Qed.

Lemma appendTaskToFile_reparse_witness :
  let t := parseTodoLine (s2u "b +p") in
  single_line (serializeTodo t)
  /\ parseTodoTxt (appendTaskToFile (s2u "a") t)
     = parseTodoTxt (s2u "a") ++ [parseTodoLine (serializeTodo t)].
Proof.
  cbv zeta.
  assert (H : single_line (serializeTodo (parseTodoLine (s2u "b +p"))))
    by (unfold single_line; decide_concrete).
  split; [exact H|exact (appendTaskToFile_reparse _ _ H)].
Defined.

(** After [deleteTaskAtLine] at an in-range index, the text parses to the
    other records in order, each re-parsed from its serialization: one record
    fewer, and each keeps its completed flag, priority, projects, contexts
    and tags. *)

Lemma deleteTaskAtLine_reparse (content : jsstr) (i : Z) :
  content <> [] -> 0 <= i < Z.of_nat (length (parseTodoTxt content)) ->
  parseTodoTxt (deleteTaskAtLine content i)
  = map (fun r => parseTodoLine (serializeTodo r)) (delete (Z.to_nat i) (parseTodoTxt content))
  /\ map grammar_fields (parseTodoTxt (deleteTaskAtLine content i))
     = map grammar_fields (delete (Z.to_nat i) (parseTodoTxt content))
  /\ length (parseTodoTxt (deleteTaskAtLine content i)) = (length (parseTodoTxt content) - 1)%nat.
Proof.
  intros Hne Hi. rewrite parseTodoTxt_kept, length_map in Hi.
  destruct (edit_in_range content i (parseTodoLine []) Hne Hi) as [_ Hd].
  rewrite Hd, (parseTodoTxt_kept content), <- map_delete_comm, map_map.
  assert (Hj : parseTodoTxt (join_lf (map (fun x => serializeTodo (parseTodoLine x))
                                         (delete (Z.to_nat i) (kept_lines content))))
               = map (fun x => parseTodoLine (serializeTodo (parseTodoLine x)))
                     (delete (Z.to_nat i) (kept_lines content))).
  { rewrite parseTodoTxt_join, map_map; [reflexivity|]. apply List.Forall_map.
    apply Forall_delete. eapply Forall_impl; [apply kept_single_line|].
    intros l Hl. apply canonical_single_line, Hl. }
  rewrite Hj. split; [|split].
  - rewrite ?map_map. reflexivity.
  - rewrite ?map_map. apply map_ext. intros l. apply reparse_grammar_fields.
  - rewrite !length_map. apply length_delete_lt. lia.
Qed.

Lemma deleteTaskAtLine_reparse_witness :
  let c := s2u "a +p" ++ 10 :: s2u "x  b @q" ++ 10 :: s2u "(C) c" in
  (c <> [] /\ 0 <= 1 < Z.of_nat (length (parseTodoTxt c)))
  /\ parseTodoTxt (deleteTaskAtLine c 1)
     = map (fun r => parseTodoLine (serializeTodo r)) (delete (Z.to_nat 1) (parseTodoTxt c))
  /\ map grammar_fields (parseTodoTxt (deleteTaskAtLine c 1))
     = map grammar_fields (delete (Z.to_nat 1) (parseTodoTxt c))
  /\ length (parseTodoTxt (deleteTaskAtLine c 1)) = (length (parseTodoTxt c) - 1)%nat.
Proof.
  cbv zeta.
  assert (H1 : s2u "a +p" ++ 10 :: s2u "x  b @q" ++ 10 :: s2u "(C) c" <> []) by discriminate.
  assert (H2 : 0 <= 1 < Z.of_nat (length (parseTodoTxt
                 (s2u "a +p" ++ 10 :: s2u "x  b @q" ++ 10 :: s2u "(C) c"))))
    by (split; [lia|vm_compute; reflexivity]).
  split; [split; [exact H1|exact H2]|exact (deleteTaskAtLine_reparse _ _ H1 H2)].
Defined.

(** After [updateTaskAtLine] at an in-range index with a record that
    serializes to one non-blank line, the text parses to the same number of
    records: the other records re-parsed from their serializations, keeping
    their completed flag, priority, projects, contexts and tags, and at the
    index the re-parse of the new record's line. *)

Lemma updateTaskAtLine_reparse (content : jsstr) (i : Z) (t : Todo) :
  content <> [] -> 0 <= i < Z.of_nat (length (parseTodoTxt content)) ->
  single_line (serializeTodo t) ->
  parseTodoTxt (updateTaskAtLine content i t)
  = map (fun r => parseTodoLine (serializeTodo r)) (<[Z.to_nat i := t]> (parseTodoTxt content))
  /\ map grammar_fields (parseTodoTxt (updateTaskAtLine content i t))
     = <[Z.to_nat i := grammar_fields (parseTodoLine (serializeTodo t))]>
         (map grammar_fields (parseTodoTxt content)).
Proof.
  intros Hne Hi Ht. rewrite parseTodoTxt_kept, length_map in Hi.
  destruct (edit_in_range content i t Hne Hi) as [Hu _].
  rewrite Hu, (parseTodoTxt_kept content).
  assert (Hj : parseTodoTxt (join_lf (map serializeTodo (<[Z.to_nat i := t]> (map parseTodoLine (kept_lines content)))))
               = map (fun r => parseTodoLine (serializeTodo r)) (<[Z.to_nat i := t]> (map parseTodoLine (kept_lines content)))).
  { rewrite parseTodoTxt_join, map_map; [reflexivity|]. apply List.Forall_map.
    apply Forall_insert; [|exact Ht]. apply List.Forall_map.
    eapply Forall_impl; [apply kept_single_line|]. intros l Hl. apply canonical_single_line, Hl. }
  rewrite Hj. split; [reflexivity|].
  rewrite map_map, map_insert_comm. f_equal. rewrite !map_map. apply map_ext. intros l.
  apply reparse_grammar_fields.
Qed.

Lemma updateTaskAtLine_reparse_witness :
  let c := s2u "a +p" ++ 10 :: s2u "x  b @q" in
  let t := parseTodoLine (s2u "(A) new +r") in
  (c <> [] /\ 0 <= 0 < Z.of_nat (length (parseTodoTxt c)) /\ single_line (serializeTodo t))
  /\ parseTodoTxt (updateTaskAtLine c 0 t)
     = map (fun r => parseTodoLine (serializeTodo r)) (<[Z.to_nat 0 := t]> (parseTodoTxt c))
  /\ map grammar_fields (parseTodoTxt (updateTaskAtLine c 0 t))
     = <[Z.to_nat 0 := grammar_fields (parseTodoLine (serializeTodo t))]>
         (map grammar_fields (parseTodoTxt c)).
Proof.
  cbv zeta.
  assert (H1 : s2u "a +p" ++ 10 :: s2u "x  b @q" <> []) by discriminate.
  assert (H2 : 0 <= 0 < Z.of_nat (length (parseTodoTxt (s2u "a +p" ++ 10 :: s2u "x  b @q"))))
    by (split; [lia|vm_compute; reflexivity]).
  assert (H3 : single_line (serializeTodo (parseTodoLine (s2u "(A) new +r"))))
    by (unfold single_line; decide_concrete).
  split; [split; [exact H1|split; [exact H2|exact H3]]|exact (updateTaskAtLine_reparse _ _ _ H1 H2 H3)].
Defined.

(** When every record serializes to one non-blank line, the text returned by
    [updateTodoInList] parses back to the re-parses of the records, with the
    record at the index replaced when the index is in range, and unchanged
    otherwise. *)

Lemma updateTodoInList_reparse (todos : list Todo) (i : Z) (t : Todo) :
  Forall (fun r => single_line (serializeTodo r)) todos -> single_line (serializeTodo t) ->
  parseTodoTxt (updateTodoInList todos i t)
  = map (fun r => parseTodoLine (serializeTodo r))
        (if (0 <=? i) && (i <? Z.of_nat (length todos)) then <[Z.to_nat i := t]> todos else todos).
Proof.
  intros Hs Ht. unfold updateTodoInList.
  destruct todos as [|r0 rs]; [destruct (_ && _); reflexivity|].
  change (Nat.eqb (length (r0 :: rs)) 0) with false. cbv iota.
  set (todos := r0 :: rs) in *.
  destruct ((i <? 0) || (Z.of_nat (length todos) <=? i)) eqn:E.
  - replace ((0 <=? i) && (i <? Z.of_nat (length todos))) with false
      by (symmetry; apply orb_true_iff in E; apply andb_false_iff;
          destruct E as [E|E]; [left; apply Z.leb_gt; apply Z.ltb_lt in E; lia
                               |right; apply Z.ltb_ge; apply Z.leb_le in E; lia]).
    cbv iota. rewrite parseTodoTxt_join, map_map; [reflexivity|]. apply List.Forall_map, Hs.
  - replace ((0 <=? i) && (i <? Z.of_nat (length todos))) with true
      by (symmetry; apply orb_false_iff in E as [E1 E2]; apply andb_true_iff;
          rewrite Z.leb_le, Z.ltb_lt; rewrite Z.ltb_ge in E1; rewrite Z.leb_gt in E2; lia).
    cbv iota. rewrite parseTodoTxt_join, map_map; [reflexivity|]. apply List.Forall_map.
    apply Forall_insert; assumption.
Qed.

Lemma updateTodoInList_reparse_witness :
  let todos := [parseTodoLine (s2u "a"); parseTodoLine (s2u "(B) b")] in
  let t := parseTodoLine (s2u "c @home") in
  (Forall (fun r => single_line (serializeTodo r)) todos /\ single_line (serializeTodo t))
  /\ parseTodoTxt (updateTodoInList todos 1 t)
     = map (fun r => parseTodoLine (serializeTodo r))
           (if (0 <=? 1) && (1 <? Z.of_nat (length todos)) then <[Z.to_nat 1 := t]> todos else todos).
Proof.
  cbv zeta.
  assert (H1 : Forall (fun r => single_line (serializeTodo r))
                 [parseTodoLine (s2u "a"); parseTodoLine (s2u "(B) b")])
    by (unfold single_line; decide_concrete).
  assert (H2 : single_line (serializeTodo (parseTodoLine (s2u "c @home"))))
    by (unfold single_line; decide_concrete).
  split; [split; [exact H1|exact H2]|exact (updateTodoInList_reparse _ _ _ H1 H2)].
Defined.
